(** * dsdk.persistor: a shallow embedding of the transactional persistor

    The development follows [src/dsdk/persistor.py]: the identifier check
    and [extant], the existence checker [check], the chunked and the keyed
    query executors, the two transaction scopes and the YAML mapping of
    [Persistor].  Python objects that the module only talks to (the DB-API
    connection and cursor, pandas) are modelled by the part of their
    behaviour that the module observes. *)

From Stdlib Require Import ZArith Ascii String List Bool Lia DecimalString.
From stdpp Require Import base option list strings gmap fin_maps.

Local Open Scope string_scope.
Local Open Scope list_scope.

(** ** Exceptions *)

(** The error classes of a DB-API driver, as PEP 249 lays them out; a
    class that a driver adds below one of them is taken as that one. *)
Module DBAPI.

Inductive kind :=
| Warning
| Error
| InterfaceError
| DatabaseError
| DataError
| OperationalError
| IntegrityError
| InternalError
| ProgrammingError
| NotSupportedError.

(** The direct base among the classes of the driver; [None] for the two
    classes that derive from [Exception]. *)
Definition base (k : kind) : option kind :=
  match k with
  | Warning | Error => None
  | InterfaceError | DatabaseError => Some Error
  | DataError | OperationalError | IntegrityError | InternalError
  | ProgrammingError | NotSupportedError => Some DatabaseError
  end.

End DBAPI.

#[global] Instance dbapi_kind_eq_dec : EqDecision DBAPI.kind.
Proof. solve_decision. Defined.

(** The exception classes that occur in the module or that a caller may
    pass to [check]; [CDriver] stands for the DB-API error classes of the
    driver in use. *)
Inductive exn_class :=
| CBaseException
| CException
| CKeyboardInterrupt
| CSystemExit
| CCancelledError
| CValueError
| CAssertionError
| CRuntimeError
| CNotImplementedError
| CLookupError
| CKeyError
| CIndexError
| CTypeError
| CDriver (kind : DBAPI.kind).

#[global] Instance exn_class_eq_dec : EqDecision exn_class.
Proof. solve_decision. Defined.

(** An exception instance with the arguments the module gives it. *)
Inductive exn :=
| ValueError (msg : string)
| AssertionError
| RuntimeError (fmt : string) (tables : list string)
| NotImplementedError
| KeyError (key : string)
| IndexError (msg : string)
| TypeError (msg : string)
| KeyboardInterrupt
| SystemExit
| CancelledError
| DriverError (kind : DBAPI.kind) (msg : string).

#[global] Instance exn_eq_dec : EqDecision exn.
Proof. solve_decision. Defined.

Definition class_of (e : exn) : exn_class :=
  match e with
  | ValueError _ => CValueError
  | AssertionError => CAssertionError
  | RuntimeError _ _ => CRuntimeError
  | NotImplementedError => CNotImplementedError
  | KeyError _ => CKeyError
  | IndexError _ => CIndexError
  | TypeError _ => CTypeError
  | KeyboardInterrupt => CKeyboardInterrupt
  | SystemExit => CSystemExit
  | CancelledError => CCancelledError
  | DriverError kind _ => CDriver kind
  end.

(** The direct base class in Python's hierarchy. *)
Definition base_class (c : exn_class) : option exn_class :=
  match c with
  | CBaseException => None
  | CException | CKeyboardInterrupt | CSystemExit | CCancelledError =>
      Some CBaseException
  | CKeyError | CIndexError => Some CLookupError
  | CNotImplementedError => Some CRuntimeError
  | CValueError | CAssertionError | CRuntimeError | CLookupError
  | CTypeError => Some CException
  | CDriver kind =>
      match DBAPI.base kind with
      | Some b => Some (CDriver b)
      | None => Some CException
      end
  end.

Fixpoint issubclass_fuel (fuel : nat) (c d : exn_class) : bool :=
  bool_decide (c = d) ||
  match fuel with
  | O => false
  | S fuel' =>
      match base_class c with
      | Some b => issubclass_fuel fuel' b d
      | None => false
      end
  end.

(** No class above is more than four steps below [BaseException]. *)
Definition issubclass : exn_class -> exn_class -> bool := issubclass_fuel 4.

(** [except classes:] catches [e] when [isinstance(e, classes)]. *)
Definition isinstance (e : exn) (classes : list exn_class) : bool :=
  existsb (issubclass (class_of e)) classes.

(** ** Results and the effect monad *)

Inductive result (A : Type) :=
| Ok (a : A)
| Raise (e : exn).
Arguments Ok {A} a.
Arguments Raise {A} e.

(** ** Values *)

(** A scalar as it travels in a row or in a parameter. *)
Inductive atom :=
| ANone
| AInt (z : Z)
| AStr (s : string).

#[global] Instance atom_eq_dec : EqDecision atom.
Proof. solve_decision. Defined.

Inductive value :=
| Scalar (a : atom)
| Sequence (l : list atom).

#[global] Instance value_eq_dec : EqDecision value.
Proof. solve_decision. Defined.

(** ** Regular expressions, as far as [ALPHA_NUMERIC_DOT] needs them *)

Module Re.

Inductive class_item :=
| Range (lo hi : ascii)
| Single (c : ascii).

Definition code (c : ascii) : N := N_of_ascii c.

Definition item_mem (c : ascii) (i : class_item) : bool :=
  match i with
  | Range lo hi => (code lo <=? code c)%N && (code c <=? code hi)%N
  | Single d => (code c =? code d)%N
  end.

(** A bracket expression [[...]]. *)
Definition class_mem (cls : list class_item) (c : ascii) : bool :=
  existsb (item_mem c) cls.

Inductive item :=
| Bol                              (* ^ *)
| Eol                              (* $ *)
| Class (cls : list class_item)    (* [...] *)
| Star (cls : list class_item).    (* [...]* *)

Definition newline : ascii := ascii_of_nat 10.

(** Python's [$] (no MULTILINE flag) matches at the end of the string and
    just before a newline that ends the string. *)
Definition at_eol (s : string) : bool :=
  match s with
  | EmptyString => true
  | String c EmptyString => bool_decide (c = newline)
  | String _ (String _ _) => false
  end.

(** Backtracking match of the items at the current position; [start]
    tells whether the position is the beginning of the string. *)
Fixpoint match_here (r : list item) (start : bool) (s : string)
  {struct r} : bool :=
  match r with
  | [] => true
  | Bol :: r' => start && match_here r' start s
  | Eol :: r' => at_eol s && match_here r' start s
  | Class cls :: r' =>
      match s with
      | String c s' => class_mem cls c && match_here r' false s'
      | EmptyString => false
      end
  | Star cls :: r' =>
      (fix star (start : bool) (s : string) {struct s} : bool :=
         match s with
         | String c s' =>
             (class_mem cls c && star false s') || match_here r' start s
         | EmptyString => match_here r' start s
         end) start s
  end.

(** [pattern.match(s)]: the match is anchored at the beginning of [s]. *)
Definition re_match (r : list item) (s : string) : bool :=
  match_here r true s.

End Re.

(** [re_compile("^[a-zA-Z_][A-Za-z0-9_.]*$")] *)
Definition ALPHA_NUMERIC_DOT : list Re.item :=
  [ Re.Bol;
    Re.Class [Re.Range "a" "z"; Re.Range "A" "Z"; Re.Single "_"];
    Re.Star [Re.Range "A" "Z"; Re.Range "a" "z"; Re.Range "0" "9";
             Re.Single "_"; Re.Single "."];
    Re.Eol ]%char.

(** ** The observable world: events, the cursor's result set, the monad *)

Inductive log_level := Debug | Info | Warning.

#[global] Instance log_level_eq_dec : EqDecision log_level.
Proof. solve_decision. Defined.

Inductive event :=
| EConnect
| EClose
| ECursor
| ECursorClose
| EExecute (statement : string) (parameters : option (gmap string value))
| ECommit
| ERollback
| EWrite (text : string)
| ELog (level : log_level) (message : string) (args : list string).

#[global] Instance event_eq_dec : EqDecision event.
Proof. solve_decision. Defined.

(** What the server answers to a statement: the column descriptors
    ([each[0]] of [cur.description]) and the rows. *)
Record response := {
  description : list string;
  rows : list (list atom)
}.

(** The database behind the cursor: [cur.execute] either raises or leaves
    a result set.  The statements of this module are reads, and the answer
    is taken to depend on the statement and its parameters only. *)
Definition driver := string -> option (gmap string value) -> result response.

Record state := {
  events : list event;
  result_set : option response
}.

Definition M (A : Type) : Type := state -> state * result A.

Definition ret {A} (a : A) : M A := fun s => (s, Ok a).

Definition raise {A} (e : exn) : M A := fun s => (s, Raise e).

Definition bind {A B} (m : M A) (k : A -> M B) : M B :=
  fun s =>
    match m s with
    | (s', Ok a) => k a s'
    | (s', Raise e) => (s', Raise e)
    end.

Notation "x <- m ;; k" := (bind m (fun x => k))
  (at level 100, m at next level, k at level 200, right associativity).
Notation "m ;;; k" := (bind m (fun _ => k))
  (at level 100, k at level 200, right associativity).

Definition lift {A} (r : result A) : M A := fun s => (s, r).

Definition emit (ev : event) : M unit :=
  fun s => ({| events := events s ++ [ev]; result_set := result_set s |}, Ok tt).

(** [try: body except BaseException as e: handler e]; a narrower
    [except] clause is a handler that raises again what it does not
    catch. *)
Definition try_except {A} (body : M A) (handler : exn -> M A) : M A :=
  fun s =>
    match body s with
    | (s', Ok a) => (s', Ok a)
    | (s', Raise e) => handler e s'
    end.

(** [try: body finally: final]; an exception of [final] replaces the
    pending one.  A [with] block whose [__exit__] does not swallow
    exceptions behaves the same way. *)
Definition try_finally {A} (body : M A) (final : M unit) : M A :=
  fun s =>
    match body s with
    | (s1, r) =>
        match final s1 with
        | (s2, Ok _) => (s2, r)
        | (s2, Raise e) => (s2, Raise e)
        end
    end.

Definition log (level : log_level) (message : string) (args : list string)
  : M unit :=
  emit (ELog level message args).

(** A call into the connection: it is recorded, then returns or raises. *)
Definition call (ev : event) (outcome : option exn) : M unit :=
  emit ev ;;;
  match outcome with
  | Some e => raise e
  | None => ret tt
  end.

(** ** The cursor *)

(** [cur.execute(statement, parameters)] *)
Definition execute (d : driver) (statement : string)
    (parameters : option (gmap string value)) : M unit :=
  fun s =>
    let evs := events s ++ [EExecute statement parameters] in
    match d statement parameters with
    | Ok r => ({| events := evs; result_set := Some r |}, Ok tt)
    | Raise e => ({| events := evs; result_set := None |}, Raise e)
    end.

Definition no_results : exn :=
  DriverError DBAPI.ProgrammingError "no results to fetch".

(** [cur.fetchall()]: the remaining rows, which are consumed. *)
Definition fetchall : M (list (list atom)) :=
  fun s =>
    match result_set s with
    | Some r =>
        ({| events := events s;
            result_set := Some {| description := description r; rows := [] |} |},
         Ok (rows r))
    | None => (s, Raise no_results)
    end.

(** [each[0] for each in cur.description] *)
Definition cursor_description : M (list string) :=
  fun s =>
    match result_set s with
    | Some r => (s, Ok (description r))
    | None => (s, Raise (TypeError "'NoneType' object is not iterable"))
    end.

(** [for row in cur: body row] *)
Fixpoint for_rows (body : list atom -> M unit) (desc : list string)
    (rs : list (list atom)) : M unit :=
  match rs with
  | [] => ret tt
  | row :: rest =>
      (fun s => ({| events := events s;
                    result_set := Some {| description := desc; rows := rest |} |},
                 Ok tt)) ;;;
      body row ;;;
      for_rows body desc rest
  end.

Definition for_cursor (body : list atom -> M unit) : M unit :=
  fun s =>
    match result_set s with
    | Some r => for_rows body (description r) (rows r) s
    | None => (s, Raise no_results)
    end.

(** ** [str.format] with keyword arguments *)

Module Fmt.

Fixpoint is_digits (s : string) : bool :=
  match s with
  | EmptyString => true
  | String c s' =>
      (N_of_ascii "0" <=? N_of_ascii c)%N && (N_of_ascii c <=? N_of_ascii "9")%N
      && is_digits s'
  end.

Definition no_positional (index : string) : exn :=
  IndexError ("Replacement index " +:+ index +:+
              " out of range for positional args tuple").

(** The value of the replacement field [name]: a keyword argument; an
    empty or numeric name asks for a positional argument, and there is
    none. *)
Definition lookup_field (kwargs : gmap string string) (name : string)
  : result string :=
  if bool_decide (name = "") then Raise (no_positional "0")
  else if is_digits name then Raise (no_positional name)
  else
    match kwargs !! name with
    | Some v => Ok v
    | None => Raise (KeyError name)
    end.

Definition cons_ok (c : ascii) (r : result string) : result string :=
  match r with
  | Ok s => Ok (String c s)
  | Raise e => Raise e
  end.

Definition app_ok (r1 r2 : result string) : result string :=
  match r1, r2 with
  | Ok a, Ok b => Ok (a +:+ b)
  | Raise e, _ => Raise e
  | Ok _, Raise e => Raise e
  end.

(** Fields are plain names, as the templates of this repository use
    them: conversions ([!r]), format specifications ([:>8]) and
    attribute or index access inside a field are not modelled.  [{{] and
    [}}] are the escapes of the braces. *)
Fixpoint go (kwargs : gmap string string) (field : option string)
    (s : string) : result string :=
  match s with
  | EmptyString =>
      match field with
      | None => Ok EmptyString
      | Some _ => Raise (ValueError "expected '}' before end of string")
      end
  | String c s' =>
      match field with
      | Some name =>
          if bool_decide (c = "}"%char)
          then app_ok (lookup_field kwargs name) (go kwargs None s')
          else if bool_decide (c = "{"%char)
          then Raise (ValueError "unexpected '{' in field name")
          else go kwargs (Some (name +:+ String c EmptyString)) s'
      | None =>
          if bool_decide (c = "{"%char) then
            match s' with
            | String "{"%char s'' => cons_ok "{"%char (go kwargs None s'')
            | EmptyString =>
                Raise (ValueError "Single '{' encountered in format string")
            | String _ _ => go kwargs (Some EmptyString) s'
            end
          else if bool_decide (c = "}"%char) then
            match s' with
            | String "}"%char s'' => cons_ok "}"%char (go kwargs None s'')
            | _ => Raise (ValueError
                     "Single '}' encountered in format string")
            end
          else cons_ok c (go kwargs None s')
      end
  end.

(** [template.format] applied to the keyword arguments [kwargs]. *)
Definition format (template : string) (kwargs : gmap string string)
  : result string :=
  go kwargs None template.

End Fmt.

(** ** AbstractPersistor *)

(** Modelled from the spec: the [Asset] class ([asset.py] is not among the
    sources).  It exposes named SQL templates, of which the persistor uses
    the [extant] template, with a [{table}] replacement field. *)
Record Asset := {
  extant_template : string
}.

#[global] Instance Asset_eq_dec : EqDecision Asset.
Proof. solve_decision. Defined.

Record AbstractPersistor := {
  sql : Asset;
  tables : list string
}.

(** The message constants are JSON documents; each is represented by the
    value of its [key] entry, the [%s] slots by the arguments logged with
    it. *)
Definition KEY : string := "abstract_persistor".
Definition CLOSE : string := KEY +:+ ".close".
Definition COMMIT : string := KEY +:+ ".commit".
Definition END : string := KEY +:+ ".end".
Definition ERROR : string := KEY +:+ ".table.error".
Definition ERRORS : string := KEY +:+ ".tables.error".
Definition EXTANT : string := KEY +:+ ".sql.extant".
Definition ON : string := KEY +:+ ".on".
Definition OPEN : string := KEY +:+ ".open".
Definition ROLLBACK : string := KEY +:+ ".rollback".

Definition not_identifier (table : string) : exn :=
  ValueError ("Not a sql identifier: " +:+ table +:+ ".").

(** [AbstractPersistor.extant] *)
Definition extant (self : AbstractPersistor) (table : string) : result string :=
  if negb (Re.re_match ALPHA_NUMERIC_DOT table)
  then Raise (not_identifier table)
  else Fmt.format (extant_template (sql self)) {[ "table" := table ]}.

Definition unpack_error : exn :=
  ValueError "not enough values to unpack (expected at least 1, got 0)".

(** The body of the row loop of [check]: [n, *_ = row; assert n == 1]. *)
Definition assert_one (row : list atom) : M unit :=
  match row with
  | [] => raise unpack_error
  | n :: _ => if bool_decide (n = AInt 1) then ret tt else raise AssertionError
  end.

(** The [try] body of [check] for one table. *)
Definition probe (d : driver) (self : AbstractPersistor) (table : string)
  : M unit :=
  statement <- lift (extant self table) ;;
  log Info EXTANT [table] ;;;
  log Debug EXTANT [statement] ;;;
  execute d statement None ;;;
  for_cursor assert_one.

(** The loop of [check] over the tables, with the list [errors]. *)
Fixpoint check_tables (d : driver) (self : AbstractPersistor)
    (exceptions : list exn_class) (ts : list string) (errors : list string)
  : M (list string) :=
  match ts with
  | [] => ret errors
  | table :: ts' =>
      errors' <- try_except
                   (probe d self table ;;; ret errors)
                   (fun e =>
                      if isinstance e exceptions
                      then log Warning ERROR [table] ;;; ret (errors ++ [table])
                      else raise e) ;;
      check_tables d self exceptions ts' errors'
  end.

(** [AbstractPersistor.check] *)
Definition check (d : driver) (self : AbstractPersistor)
    (exceptions : list exn_class) : M unit :=
  log Info ON [] ;;;
  errors <- check_tables d self exceptions (tables self) [] ;;
  match errors with
  | _ :: _ => raise (RuntimeError ERRORS errors)
  | [] => log Info END []
  end.

(** ** The transaction scopes *)

(** How the calls into the connection end: [None] when the call returns,
    [Some e] when it raises [e]. *)
Record connection := {
  on_connect : option exn;
  on_cursor : option exn;
  on_cursor_close : option exn;
  on_commit : option exn;
  on_rollback : option exn;
  on_close : option exn
}.

(** What the caller's [with] block does with the cursor it is given: the
    statements it executes and how it ends. *)
Record caller_block := {
  block_statements : list (string * option (gmap string value));
  block_outcome : option exn
}.

Fixpoint run_statements (l : list (string * option (gmap string value)))
  : M unit :=
  match l with
  | [] => ret tt
  | (q, ps) :: l' => emit (EExecute q ps) ;;; run_statements l'
  end.

(** [yield cur]: the caller's block runs here. *)
Definition run_block (b : caller_block) : M unit :=
  run_statements (block_statements b) ;;;
  match block_outcome b with
  | Some e => raise e
  | None => ret tt
  end.

(** Modelled from the spec: [connect], which the classes of this module
    leave to the dialects (it raises [NotImplementedError] here).  A
    dialect opens a connection, yields it, and closes it on every exit
    path. *)
Definition connect {A} (con : connection) (body : M A) : M A :=
  call EConnect (on_connect con) ;;;
  log Info OPEN [] ;;;
  try_finally body (call EClose (on_close con) ;;; log Info CLOSE []).

(** [AbstractPersistor.cursor]: [with con.cursor() as cursor: yield cursor] *)
Definition cursor {A} (con : connection) (body : M A) : M A :=
  call ECursor (on_cursor con) ;;;
  try_finally body (call ECursorClose (on_cursor_close con)).

(** [AbstractPersistor.commit] around the caller's block. *)
Definition commit (con : connection) (b : caller_block) : M unit :=
  connect con
    (try_except
       (cursor con (run_block b) ;;;
        call ECommit (on_commit con) ;;;
        log Info COMMIT [])
       (fun e =>
          call ERollback (on_rollback con) ;;;
          log Info ROLLBACK [] ;;;
          raise e)).

(** [AbstractPersistor.rollback] around the caller's block. *)
Definition rollback (con : connection) (b : caller_block) : M unit :=
  connect con
    (try_finally
       (cursor con (run_block b))
       (call ERollback (on_rollback con) ;;;
        log Info ROLLBACK [])).

Definition initial : state := {| events := []; result_set := None |}.

(** The number of times the call [ev] was made. *)
Definition invocations (ev : event) (s : state) : nat :=
  length (filter (fun e => e = ev) (events s)).

(** ** Chunks *)

(** Modelled from the spec: the recursion behind [utils.chunks] below;
    [fuel] bounds the number of chunks, and the length of the sequence is
    enough. *)
Fixpoint chunks_fuel {A} (fuel : nat) (l : list A) (n : nat) : list (list A) :=
  match fuel with
  | O => []
  | S fuel' =>
      match l with
      | [] => []
      | _ :: _ => take n l :: chunks_fuel fuel' (drop n l) n
      end
  end.

(** Modelled from the spec: [utils.chunks] ([utils.py] is not among the
    sources): the sequence of bounded subsequences of [sequence], each of
    at most [n] items, in the order of the sequence.  The model is meant
    for a positive [n]. *)
Definition chunks {A} (sequence : list A) (n : nat) : list (list A) :=
  chunks_fuel (length sequence) sequence n.

(** ** pandas, as far as the module uses it *)

Inductive label :=
| Position (i : nat)
| Name (s : string).

#[global] Instance label_eq_dec : EqDecision label.
Proof. solve_decision. Defined.

Record DataFrame := {
  columns : list label;
  data : list (list atom)
}.

Definition positions (width : nat) : list label := map Position (seq 0 width).

(** [DataFrame(rows)]: the columns are numbered up to the longest row.
    (pandas pads the shorter rows; the rows of one result set have one
    entry per column descriptor, and the padding is not modelled.) *)
Definition frame_of_rows (rs : list (list atom)) : DataFrame :=
  {| columns := positions (max_list (map length rs)); data := rs |}.

(** [DataFrame(columns=columns)] *)
Definition frame_of_columns (names : list string) : DataFrame :=
  {| columns := map Name names; data := [] |}.

Definition no_objects : exn := ValueError "No objects to concatenate".

(** [concat(dfs, ignore_index=True)] of frames with numbered columns. *)
Definition concat (dfs : list DataFrame) : result DataFrame :=
  match dfs with
  | [] => Raise no_objects
  | _ :: _ =>
      Ok {| columns :=
              positions (max_list (map (fun df => length (columns df)) dfs));
            data := flat_map data dfs |}
  end.

Definition length_mismatch : exn := ValueError "Length mismatch".

(** [df.columns = names] *)
Definition set_columns (df : DataFrame) (names : list string)
  : result DataFrame :=
  if bool_decide (length (columns df) = length names)
  then Ok {| columns := map Name names; data := data df |}
  else Raise length_mismatch.

(** ** The query executors *)

Definition or_empty (parameters : option (gmap string value))
  : gmap string value :=
  match parameters with
  | Some m => m
  | None => ∅
  end.

(** [AbstractPersistor.df_from_query] *)
Definition df_from_query (d : driver) (query : string)
    (parameters : option (gmap string value)) : M DataFrame :=
  execute d query (Some (or_empty parameters)) ;;;
  names <- cursor_description ;;
  rs <- fetchall ;;
  match rs with
  | _ :: _ => lift (set_columns (frame_of_rows rs) names)
  | [] => ret (frame_of_columns names)
  end.

(** The dict display [{"ids": chunk, **parameters}]: an [ids] entry of
    [parameters] comes later and wins. *)
Definition bind_ids (chunk : list atom) (parameters : gmap string value)
  : gmap string value :=
  parameters ∪ {[ "ids" := Sequence chunk ]}.

(** The loop of [df_from_query_by_ids] over the chunks, with the list
    [dfs]. *)
Fixpoint by_ids_loop (d : driver) (query : string)
    (parameters : gmap string value) (cs : list (list atom))
    (dfs : list DataFrame) : M (list DataFrame) :=
  match cs with
  | [] => ret dfs
  | chunk :: cs' =>
      execute d query (Some (bind_ids chunk parameters)) ;;;
      rs <- fetchall ;;
      by_ids_loop d query parameters cs'
        match rs with
        | _ :: _ => dfs ++ [frame_of_rows rs]
        | [] => dfs
        end
  end.

Definition empty_ids : exn := ValueError "Parameter ids must not be empty".

(** [AbstractPersistor.df_from_query_by_ids]; after the loop the variable
    [chunk] holds the last chunk, or [None] when there was none. *)
Definition df_from_query_by_ids (d : driver) (query : string)
    (ids : list atom) (parameters : option (gmap string value))
    (size : nat) : M DataFrame :=
  let parameters := or_empty parameters in
  dfs <- by_ids_loop d query parameters (chunks ids size) [] ;;
  match last (chunks ids size) with
  | None => raise empty_ids
  | Some _ =>
      names <- cursor_description ;;
      df <- lift (concat dfs) ;;
      lift (set_columns df names)
  end.

(** ** The safe parameter renderer *)

(** The escaping of one value into a literal is owned by the dialect. *)
Record dialect := {
  render : value -> string
}.

Inductive mogrify_params :=
| Positional (l : list value)
| Named (m : gmap string value).

Inductive mogrify_mode :=
| Text
| Percent
| InName (name : string)
| AfterName (name : string).

Definition few_arguments : exn :=
  TypeError "not enough arguments for format string".
Definition many_arguments : exn :=
  TypeError "not all arguments converted during string formatting".
Definition needs_mapping : exn := TypeError "format requires a mapping".
Definition bad_format : exn := ValueError "unsupported format character".
Definition incomplete_format : exn := ValueError "incomplete format".

(** Modelled from the spec: the scan of the query text by [mogrify]
    below, one character at a time. *)
Fixpoint mogrify_go (dia : dialect) (mode : mogrify_mode)
    (ps : mogrify_params) (q : string) : result string :=
  match q with
  | EmptyString =>
      match mode with
      | Text =>
          match ps with
          | Positional (_ :: _) => Raise many_arguments
          | _ => Ok EmptyString
          end
      | _ => Raise incomplete_format
      end
  | String c q' =>
      match mode with
      | Text =>
          if bool_decide (c = "%"%char)
          then mogrify_go dia Percent ps q'
          else Fmt.cons_ok c (mogrify_go dia Text ps q')
      | Percent =>
          if bool_decide (c = "%"%char)
          then Fmt.cons_ok c (mogrify_go dia Text ps q')
          else if bool_decide (c = "s"%char) then
            match ps with
            | Positional (v :: vs) =>
                Fmt.app_ok (Ok (render dia v))
                  (mogrify_go dia Text (Positional vs) q')
            | Positional [] => Raise few_arguments
            | Named _ => Raise needs_mapping
            end
          else if bool_decide (c = "("%char)
          then mogrify_go dia (InName EmptyString) ps q'
          else Raise bad_format
      | InName name =>
          if bool_decide (c = ")"%char)
          then mogrify_go dia (AfterName name) ps q'
          else mogrify_go dia (InName (name +:+ String c EmptyString)) ps q'
      | AfterName name =>
          if bool_decide (c = "s"%char) then
            match ps with
            | Named m =>
                match m !! name with
                | Some v =>
                    Fmt.app_ok (Ok (render dia v)) (mogrify_go dia Text ps q')
                | None => Raise (KeyError name)
                end
            | Positional _ => Raise needs_mapping
            end
          else Raise bad_format
      end
  end.

(** Modelled from the spec: [mogrify], which the classes of this module
    leave to the dialects (it raises [NotImplementedError] here).  It
    substitutes the safely rendered parameters into the query: a tuple
    fills the [%s] placeholders from left to right, a dict the
    [%(name)s] placeholders; [%%] is a percent sign.  The text is returned
    as already decoded. *)
Definition mogrify (dia : dialect) (query : string) (parameters : mogrify_params)
  : result string :=
  mogrify_go dia Text parameters query.

(** The separator of the fragments: a line feed and four spaces. *)
Definition union_separator : string := String Re.newline "    ".

(** [AbstractPersistor.union_all] *)
Definition union_all (dia : dialect) (keys : list atom) : result string :=
  let parameters := map Scalar keys in
  let union :=
    String.concat union_separator
      (map (fun _ => "union all select %s") parameters) in
  mogrify dia union (Positional parameters).

(** The dict comprehension of [df_from_query_by_keys]; the dict is kept
    as the list of its items, in their order. *)
Fixpoint union_all_items (dia : dialect) (keys : list (string * list atom))
  : result (list (string * string)) :=
  match keys with
  | [] => Ok []
  | (key, sequence) :: keys' =>
      match union_all dia sequence with
      | Raise e => Raise e
      | Ok clause =>
          match union_all_items dia keys' with
          | Raise e => Raise e
          | Ok items => Ok ((key, clause) :: items)
          end
      end
  end.

(** [AbstractPersistor.df_from_query_by_keys] *)
Definition df_from_query_by_keys (dia : dialect) (d : driver) (query : string)
    (keys : option (list (string * list atom)))
    (parameters : option (gmap string value)) : M DataFrame :=
  let keys := match keys with Some l => l | None => [] end in
  let parameters := or_empty parameters in
  items <- lift (union_all_items dia keys) ;;
  query <- lift (Fmt.format query (list_to_map items)) ;;
  rendered <- lift (mogrify dia query (Named parameters)) ;;
  emit (EWrite rendered) ;;;
  execute d rendered None ;;;
  rs <- fetchall ;;
  names <- cursor_description ;;
  lift (set_columns (frame_of_rows rs) names).

(** ** Persistor and its YAML mapping *)

Record Persistor := {
  database : string;
  host : string;
  password : string;
  port : Z;
  username : string;
  super : AbstractPersistor
}.

(** The values of the mapping that [as_yaml] builds. *)
Inductive yaml :=
| YStr (s : string)
| YInt (z : Z)
| YAsset (a : Asset)
| YTuple (l : list string).

#[global] Instance yaml_eq_dec : EqDecision yaml.
Proof. solve_decision. Defined.

(** [Persistor.as_yaml] *)
Definition as_yaml (self : Persistor) : gmap string yaml :=
  list_to_map
    [ ("database", YStr (database self));
      ("host", YStr (host self));
      ("password", YStr (password self));
      ("port", YInt (port self));
      ("sql", YAsset (sql (super self)));
      ("tables", YTuple (tables (super self)));
      ("username", YStr (username self)) ].

(** [Persistor.YAML], the tag of the class. *)
Definition YAML : string := "!basepersistor".

(** [Persistor._yaml_repr]: the mapping node that the dumper is asked to
    represent, a tag with the mapping of [as_yaml]. *)
Definition _yaml_repr (self : Persistor) (tag : string)
  : string * gmap string yaml :=
  (tag, as_yaml self).

Definition init_keywords : gset string :=
  list_to_set
    ["database"; "host"; "password"; "port"; "sql"; "tables"; "username"].

Definition bad_keywords : exn :=
  TypeError "__init__() got unexpected or missing keyword arguments".
Definition bad_annotation : exn :=
  TypeError "argument does not have the annotated type".

(** [Persistor._yaml_init] on the mapping that the loader constructs:
    [cls(mapping)] with the mapping as keyword arguments.  [__init__]
    takes exactly the seven keyword-only arguments; its annotations are
    the types of the fields. *)
Definition _yaml_init (mapping : gmap string yaml) : result Persistor :=
  if bool_decide (dom mapping = init_keywords) then
    match mapping !! "database", mapping !! "host", mapping !! "password",
          mapping !! "port", mapping !! "sql", mapping !! "tables",
          mapping !! "username" with
    | Some (YStr database), Some (YStr host), Some (YStr password),
      Some (YInt port), Some (YAsset sql), Some (YTuple tables),
      Some (YStr username) =>
        Ok {| database := database; host := host; password := password;
              port := port; username := username;
              super := {| sql := sql; tables := tables |} |}
    | _, _, _, _, _, _, _ => Raise bad_annotation
    end
  else Raise bad_keywords.

(** ** Notions used in the statements *)

#[global] Instance result_eq_dec {A} `{EqDecision A} : EqDecision (result A).
Proof. solve_decision. Defined.

(** The statements that were executed, in order. *)
Definition executed (evs : list event) : list string :=
  omap (fun ev => match ev with EExecute q _ => Some q | _ => None end) evs.

(** How the probe of one table ends, and what it leaves in the trace. *)
Definition probe_result (d : driver) (self : AbstractPersistor)
    (table : string) : result unit :=
  snd (probe d self table initial).

Definition probe_events (self : AbstractPersistor) (table : string)
  : list event :=
  match extant self table with
  | Ok statement =>
      [ELog Info EXTANT [table]; ELog Debug EXTANT [statement];
       EExecute statement None]
  | Raise _ => []
  end.

Definition statement_of (self : AbstractPersistor) (table : string)
  : option string :=
  match extant self table with
  | Ok statement => Some statement
  | Raise _ => None
  end.

(** The first value of a row is [1]. *)
Definition starts_with_one (row : list atom) : Prop := head row = Some (AInt 1).

(** The two bracket expressions of [ALPHA_NUMERIC_DOT]. *)
Definition head_class : list Re.class_item :=
  [Re.Range "a" "z"; Re.Range "A" "Z"; Re.Single "_"]%char.
Definition tail_class : list Re.class_item :=
  [Re.Range "A" "Z"; Re.Range "a" "z"; Re.Range "0" "9";
   Re.Single "_"; Re.Single "."]%char.

Fixpoint all_in (cls : list Re.class_item) (s : string) : bool :=
  match s with
  | EmptyString => true
  | String c s' => Re.class_mem cls c && all_in cls s'
  end.

Definition line_feed : string := String Re.newline EmptyString.

(** A piece of template text without replacement fields. *)
Fixpoint brace_free (s : string) : bool :=
  match s with
  | EmptyString => true
  | String c s' =>
      negb (bool_decide (c = "{"%char)) && negb (bool_decide (c = "}"%char))
      && brace_free s'
  end.

(** The frames that [df_from_query_by_ids] keeps: one per chunk whose
    execution returned at least one row. *)
Definition partial_frames (rss : list (list (list atom))) : list DataFrame :=
  map frame_of_rows (filter (fun rs => rs <> []) rss).

(** The execution of the query for one chunk, as the trace records it. *)
Definition chunk_execution (query : string) (parameters : gmap string value)
    (chunk : list atom) : event :=
  EExecute query (Some (bind_ids chunk parameters)).

(** A piece of query text without placeholders. *)
Fixpoint percent_free (s : string) : bool :=
  match s with
  | EmptyString => true
  | String c s' => negb (bool_decide (c = "%"%char)) && percent_free s'
  end.

(** One fragment of the union clause, with the literal rendered for the
    key, and the clause of a key group: its fragments, joined. *)
Definition fragment (dia : dialect) (key : atom) : string :=
  "union all select " +:+ render dia (Scalar key).

Definition clause (dia : dialect) (keys : list atom) : string :=
  String.concat union_separator (map (fragment dia) keys).

(** ** Traces *)

Definition add_events (s : state) (evs : list event) : state :=
  {| events := events s ++ evs; result_set := result_set s |}.

Arguments add_events : simpl never.

(** The number of occurrences of [ev] in a list of events. *)
Definition occurrences (ev : event) (evs : list event) : nat :=
  length (filter (fun e => e = ev) evs).

(** The events of the statements that a block executes. *)
Definition statement_events (l : list (string * option (gmap string value)))
  : list event :=
  map (fun qp => EExecute (fst qp) (snd qp)) l.

(** ** Sample inputs *)

(** The [connect] of the classes of this module, which only raises. *)
Definition abstract_connection : connection :=
  {| on_connect := Some NotImplementedError; on_cursor := None;
     on_cursor_close := None; on_commit := None; on_rollback := None;
     on_close := None |}.

(** A connection all of whose calls return. *)
Definition reliable : connection :=
  {| on_connect := None; on_cursor := None; on_cursor_close := None;
     on_commit := None; on_rollback := None; on_close := None |}.

Definition quiet_block : caller_block :=
  {| block_statements := [("select 1", None)]; block_outcome := None |}.

Definition interrupted_block : caller_block :=
  {| block_statements := [("select 1", None)];
     block_outcome := Some KeyboardInterrupt |}.

(** The scenario of the spec: two governed tables, of which [scores] is
    missing in the database. *)
Definition clinic : AbstractPersistor :=
  {| sql := {| extant_template := "select 1 as n from {table} limit 1" |};
     tables := ["patients"; "scores"] |}.

Definition one_row : response := {| description := ["n"]; rows := [[AInt 1]] |}.

Definition scores_missing : driver :=
  fun statement _ =>
    if String.eqb statement "select 1 as n from scores limit 1"
    then Raise (DriverError DBAPI.DatabaseError "relation scores does not exist")
    else Ok one_row.

(** The same scenario with a database that cannot be reached for
    [scores]: the driver raises a class below [DatabaseError]. *)
Definition scores_unreachable : driver :=
  fun statement _ =>
    if String.eqb statement "select 1 as n from scores limit 1"
    then Raise (DriverError DBAPI.OperationalError "connection lost")
    else Ok one_row.

(** A table list with an ill-formed name in the middle. *)
Definition ward : AbstractPersistor :=
  {| sql := sql clinic; tables := ["patients"; "1scores"; "visits"] |}.

(** A connection whose [commit()] raises. *)
Definition commit_fails : connection :=
  {| on_connect := None; on_cursor := None; on_cursor_close := None;
     on_commit := Some (DriverError DBAPI.OperationalError "could not commit");
     on_rollback := None; on_close := None |}.

(** Databases that answer every statement with no row, and with two
    rows. *)
Definition empty_answer : driver :=
  fun _ _ => Ok {| description := ["n"]; rows := [] |}.

Definition double_answer : driver :=
  fun _ _ => Ok {| description := ["n"]; rows := [[AInt 1]; [AInt 1]] |}.

(** A database that answers a query by ids with one row per id. *)
Definition echo_response (chunk : list atom) : response :=
  {| description := ["id"; "score"];
     rows := map (fun a => [a; AInt 0]) chunk |}.

Definition echo : driver :=
  fun _ parameters =>
    match parameters with
    | Some m =>
        match m !! "ids" with
        | Some (Sequence chunk) => Ok (echo_response chunk)
        | _ => Raise (DriverError DBAPI.ProgrammingError "ids")
        end
    | None => Raise (DriverError DBAPI.ProgrammingError "ids")
    end.

(** A database that answers a query by ids with one row per id, each
    with the value of the parameter [score]; it fails without that
    parameter. *)
Definition scored_response (score : atom) (chunk : list atom) : response :=
  {| description := ["id"; "score"];
     rows := map (fun a => [a; score]) chunk |}.

Definition scored : driver :=
  fun _ parameters =>
    match parameters with
    | Some m =>
        match m !! "ids", m !! "score" with
        | Some (Sequence chunk), Some (Scalar score) =>
            Ok (scored_response score chunk)
        | _, _ => Raise (DriverError DBAPI.ProgrammingError "parameters")
        end
    | None => Raise (DriverError DBAPI.ProgrammingError "parameters")
    end.

Definition ids25 : list atom := map (fun n => AInt (Z.of_nat n)) (seq 0 25).

(** A dialect that writes integers in decimal and strings between
    quotes. *)
Definition plain : dialect :=
  {| render := fun v =>
       match v with
       | Scalar (AInt z) => NilZero.string_of_int (Z.to_int z)
       | Scalar (AStr s) => "'" +:+ s +:+ "'"
       | Scalar ANone => "NULL"
       | Sequence _ => "ARRAY"
       end |}.


(** ** The keyed query, by the [mogrify] of the class *)

(** [cls.mogrify(cur, query, parameters).decode("utf-8")], as a class
    provides it. *)
Definition renderer := string -> mogrify_params -> result string.

(** [keys.items()], with the default of [keys]. *)
Definition group_items (keys : option (list (string * list atom)))
  : list (string * list atom) :=
  match keys with
  | Some l => l
  | None => []
  end.

Module ByClass.

(** [AbstractPersistor.mogrify] *)
Definition mogrify : renderer := fun _ _ => Raise NotImplementedError.

(** [AbstractPersistor.union_all], with [cls.mogrify] as [render_query]. *)
Definition union_all (render_query : renderer) (keys : list atom)
  : result string :=
  let parameters := map Scalar keys in
  let union :=
    String.concat union_separator
      (map (fun _ => "union all select %s") parameters) in
  render_query union (Positional parameters).

(** The dict comprehension of [df_from_query_by_keys]. *)
Fixpoint union_all_items (render_query : renderer)
    (keys : list (string * list atom)) : result (list (string * string)) :=
  match keys with
  | [] => Ok []
  | (key, sequence) :: keys' =>
      match union_all render_query sequence with
      | Raise e => Raise e
      | Ok clause =>
          match union_all_items render_query keys' with
          | Raise e => Raise e
          | Ok items => Ok ((key, clause) :: items)
          end
      end
  end.

(** [AbstractPersistor.df_from_query_by_keys], with [cls.mogrify] as
    [render_query]. *)
Definition df_from_query_by_keys (render_query : renderer) (d : driver)
    (query : string) (keys : option (list (string * list atom)))
    (parameters : option (gmap string value)) : M DataFrame :=
  let keys := match keys with Some l => l | None => [] end in
  let parameters := or_empty parameters in
  items <- lift (union_all_items render_query keys) ;;
  query <- lift (Fmt.format query (list_to_map items)) ;;
  rendered <- lift (render_query query (Named parameters)) ;;
  emit (EWrite rendered) ;;;
  execute d rendered None ;;;
  rs <- fetchall ;;
  names <- cursor_description ;;
  lift (set_columns (frame_of_rows rs) names).

End ByClass.

(** ** Interval *)

(** A [datetime.datetime], by its fields. *)
Record datetime := {
  year : Z;
  month : Z;
  day : Z;
  hour : Z;
  minute : Z;
  second : Z;
  microsecond : Z
}.

#[global] Instance datetime_eq_dec : EqDecision datetime.
Proof. solve_decision. Defined.

(** The objects that the loader hands to [Interval]: a time stamp or
    [None], and, since nothing checks the annotations, any other
    scalar. *)
Inductive scalar :=
| SNone
| SDatetime (d : datetime)
| SStr (s : string)
| SInt (z : Z).

#[global] Instance scalar_eq_dec : EqDecision scalar.
Proof. solve_decision. Defined.

Module Interval.

(** The attributes that [__init__] sets; [end_] is the attribute
    [end]. *)
Record Interval := {
  on : scalar;
  end_ : scalar
}.

(** [Interval.YAML] *)
Definition YAML : string := "!interval".

(** [Interval.as_yaml] *)
Definition as_yaml (self : Interval) : gmap string scalar :=
  list_to_map [("end", end_ self); ("on", on self)].

(** [Interval._yaml_repr]: the tag and the mapping handed to the
    dumper. *)
Definition _yaml_repr (self : Interval) : string * gmap string scalar :=
  (YAML, as_yaml self).

Definition init_keywords : gset string := list_to_set ["on"; "end"].

Definition unexpected_keyword : exn :=
  TypeError "__init__() got an unexpected keyword argument".
Definition missing_on : exn :=
  TypeError "__init__() missing 1 required positional argument: 'on'".

(** [Interval.__init__] called with keyword arguments: [on] is
    required, [end] defaults to [None], and no other keyword is
    taken. *)
Definition __init__ (kwargs : gmap string scalar) : result Interval :=
  if bool_decide (dom kwargs ⊆ init_keywords) then
    match kwargs !! "on" with
    | None => Raise missing_on
    | Some start =>
        Ok {| on := start;
              end_ := match kwargs !! "end" with
                      | Some stop => stop
                      | None => SNone
                      end |}
    end
  else Raise unexpected_keyword.

(** [Interval._yaml_init] on the mapping that the loader constructs from
    the node. *)
Definition _yaml_init (mapping : gmap string scalar) : result Interval :=
  __init__ mapping.

End Interval.

(** ** Notions used in the statements on the scopes *)

(** No use of the cursor among the events. *)
Definition no_cursor_use (evs : list event) : bool :=
  forallb (fun ev =>
             match ev with
             | ECursor | ECursorClose | EExecute _ _ => false
             | _ => true
             end) evs.

(** No call that ends the transaction among the events. *)
Definition no_transaction_end (evs : list event) : bool :=
  forallb (fun ev =>
             match ev with
             | ECommit | ERollback => false
             | _ => true
             end) evs.

(** The tables of the warnings that [check] logs. *)
Definition warned (evs : list event) : list string :=
  flat_map (fun ev =>
              match ev with
              | ELog Warning message args =>
                  if bool_decide (message = ERROR) then args else []
              | _ => []
              end) evs.

(** A replacement field that [str.format] looks up among the keyword
    arguments as it stands: a name of letters, digits and underscores
    that is not a number. *)
Definition field_class : list Re.class_item :=
  [Re.Range "a" "z"; Re.Range "A" "Z"; Re.Range "0" "9"; Re.Single "_"]%char.

Definition keyword_field (name : string) : bool :=
  negb (Fmt.is_digits name) && all_in field_class name.

(** ** More sample inputs *)

(** Connections whose [cursor()], and whose [rollback()], raises. *)
Definition cursor_fails : connection :=
  {| on_connect := None;
     on_cursor := Some (DriverError DBAPI.OperationalError "no cursor");
     on_cursor_close := None; on_commit := None; on_rollback := None;
     on_close := None |}.

Definition rollback_fails : connection :=
  {| on_connect := None; on_cursor := None; on_cursor_close := None;
     on_commit := None;
     on_rollback := Some (DriverError DBAPI.OperationalError "could not roll back");
     on_close := None |}.

(** A database that is lost after the chunk of ids that starts
    with [0]. *)
Definition lost_after_first : driver :=
  fun _ parameters =>
    match parameters with
    | Some m =>
        match m !! "ids" with
        | Some (Sequence (AInt 0 :: chunk)) =>
            Ok (echo_response (AInt 0 :: chunk))
        | _ => Raise (DriverError DBAPI.OperationalError "connection lost")
        end
    | None => Raise (DriverError DBAPI.OperationalError "connection lost")
    end.

(** A database that answers every statement with the same two rows. *)
Definition two_scores : response :=
  {| description := ["id"; "score"];
     rows := [[AInt 1; AInt 7]; [AInt 2; AInt 9]] |}.

Definition fixed_answer : driver := fun _ _ => Ok two_scores.

(** A persistor whose template misspells its field. *)
Definition misspelt : AbstractPersistor :=
  {| sql := {| extant_template := "select 1 as n from {tabel} limit 1" |};
     tables := ["patients"] |}.

(** * Properties *)

(** ** The monad and the trace *)

Lemma add_events_nil s : add_events s [] = s.
Proof. destruct s; unfold add_events; simpl. by rewrite app_nil_r. Qed.

Lemma add_events_app s l1 l2 :
  add_events (add_events s l1) l2 = add_events s (l1 ++ l2).
Proof. unfold add_events; simpl. by rewrite app_assoc. Qed.

Lemma emit_add ev s : emit ev s = (add_events s [ev], Ok tt).
Proof. reflexivity. Qed.

Lemma call_returns ev s : call ev None s = (add_events s [ev], Ok tt).
Proof. reflexivity. Qed.

Lemma call_raises ev e s : call ev (Some e) s = (add_events s [ev], Raise e).
Proof. reflexivity. Qed.

Lemma log_add level message args s :
  log level message args s = (add_events s [ELog level message args], Ok tt).
Proof. reflexivity. Qed.

Lemma invocations_add ev s evs :
  invocations ev (add_events s evs) = invocations ev s + occurrences ev evs.
Proof.
  unfold invocations, occurrences, add_events; simpl.
  by rewrite filter_app, length_app.
Qed.

Lemma occurrences_app ev l1 l2 :
  occurrences ev (l1 ++ l2) = occurrences ev l1 + occurrences ev l2.
Proof. unfold occurrences. by rewrite filter_app, length_app. Qed.

Lemma occurrences_cons ev e l :
  occurrences ev (e :: l) =
  (if bool_decide (e = ev) then 1 else 0) + occurrences ev l.
Proof.
  unfold occurrences. rewrite filter_cons.
  case_bool_decide; case_decide; simpl; congruence.
Qed.

Lemma run_statements_events l s :
  run_statements l s = (add_events s (statement_events l), Ok tt).
Proof.
  revert s. induction l as [|[q ps] l IH]; intros s; simpl.
  - unfold ret. by rewrite add_events_nil.
  - unfold bind. rewrite emit_add, IH, add_events_app. reflexivity.
Qed.

Lemma statements_not_commit l : occurrences ECommit (statement_events l) = 0.
Proof.
  induction l as [|qp l IH]; [reflexivity|].
  simpl. rewrite occurrences_cons, IH. by rewrite bool_decide_eq_false_2.
Qed.

Lemma statements_not_rollback l : occurrences ERollback (statement_events l) = 0.
Proof.
  induction l as [|qp l IH]; [reflexivity|].
  simpl. rewrite occurrences_cons, IH. by rewrite bool_decide_eq_false_2.
Qed.

Lemma run_block_events b s :
  run_block b s =
  (add_events s (statement_events (block_statements b)),
   match block_outcome b with Some e => Raise e | None => Ok tt end).
Proof.
  unfold run_block, bind. rewrite run_statements_events.
  by destruct (block_outcome b).
Qed.

(** ** The transaction scopes *)

Ltac scope_unfold :=
  unfold commit, rollback, connect, cursor, try_except, try_finally, bind;
  repeat (rewrite ?call_returns, ?call_raises, ?log_add, ?run_block_events,
            ?add_events_app; unfold raise, ret; cbn [fst snd]).

Ltac count_events :=
  rewrite ?invocations_add, ?occurrences_app, ?statements_not_commit,
    ?statements_not_rollback;
  repeat (rewrite occurrences_cons; simpl);
  change (occurrences _ []) with 0; try lia.

Ltac scope_cases con b :=
  let c1 := fresh "c" in let c2 := fresh "c" in let c3 := fresh "c" in
  let c4 := fresh "c" in let c5 := fresh "c" in let c6 := fresh "c" in
  let sts := fresh "statements" in let o := fresh "outcome" in
  destruct con as [c1 c2 c3 c4 c5 c6];
  destruct b as [sts o];
  cbn [on_connect on_cursor on_cursor_close on_commit on_rollback on_close
       block_outcome block_statements] in *;
  subst.

Ltac scope_step :=
  scope_unfold;
  cbn [on_connect on_cursor on_cursor_close on_commit on_rollback on_close
       block_outcome block_statements fst snd].

Ltac scope_solve :=
  repeat match goal with o : option exn |- _ => destruct o end;
  repeat scope_step;
  repeat split; intros; try count_events; try congruence; eauto.

(** Four steps reach the top of the hierarchy from every class: more
    fuel changes nothing. *)
Lemma issubclass_fuel_enough (n : nat) (c d : exn_class) :
  issubclass_fuel (4 + n) c d = issubclass c d.
Proof.
  destruct c as [| | | | | | | | | | | | |kind]; try reflexivity.
  destruct kind, n; reflexivity.
Qed.

(** The classes of the driver below [DatabaseError] are caught by it, the
    classes beside it are not. *)
Example driver_hierarchy :
  isinstance (DriverError DBAPI.OperationalError "connection lost")
    [CDriver DBAPI.DatabaseError] = true /\
  isinstance (DriverError DBAPI.ProgrammingError "no such table")
    [CDriver DBAPI.Error] = true /\
  isinstance (DriverError DBAPI.InterfaceError "closed")
    [CDriver DBAPI.DatabaseError] = false /\
  isinstance (DriverError DBAPI.DatabaseError "failed")
    [CDriver DBAPI.OperationalError] = false /\
  isinstance (KeyError "table") [CDriver DBAPI.Error; CValueError] = false /\
  isinstance (KeyError "table") [CLookupError] = true.
Proof. repeat split; reflexivity. Qed.

(** [except BaseException] lets nothing through: every exception is an
    instance of [BaseException]. *)
Lemma base_exception_catches_all (e : exn) :
  isinstance e [CBaseException] = true.
Proof.
  destruct e as [| | | | | | | | | |kind msg]; try reflexivity.
  by destruct kind.
Qed.

(** C1. Under the commit scope, with a connection that was opened and gave
    a cursor (the caller's block is run): if the block completes normally
    and the calls that follow it (releasing the cursor, [commit()]) return,
    [commit()] is invoked exactly once and [rollback()] never, and the
    scope ends normally; if the block raises any exception [e],
    [rollback()] is invoked exactly once, [commit()] never, and [e] itself
    is what the scope raises once the cursor and the connection are
    released. *)
Theorem commit_scope (con : connection) (b : caller_block) (s : state) :
  on_connect con = None -> on_cursor con = None ->
  let s' := fst (commit con b s) in
  let r := snd (commit con b s) in
  (block_outcome b = None ->
   on_cursor_close con = None -> on_commit con = None ->
   invocations ECommit s' = invocations ECommit s + 1 /\
   invocations ERollback s' = invocations ERollback s /\
   (on_close con = None -> r = Ok tt))
  /\
  (forall e, block_outcome b = Some e ->
   invocations ERollback s' = invocations ERollback s + 1 /\
   invocations ECommit s' = invocations ECommit s /\
   (on_cursor_close con = None -> on_rollback con = None ->
    on_close con = None -> r = Raise e)).
Proof.
  intros Hconnect Hcursor. scope_cases con b. split.
  - intros -> -> ->. scope_solve.
  - intros e ->. scope_solve.
Qed.

(** X5. With the [connect] of this module itself neither scope runs the
    block: entering it raises [NotImplementedError]. *)
Lemma abstract_connect_raises (b : caller_block) (s : state) :
  commit abstract_connection b s =
    (add_events s [EConnect], Raise NotImplementedError) /\
  rollback abstract_connection b s =
    (add_events s [EConnect], Raise NotImplementedError).
Proof. split; reflexivity. Qed.

(** X1. When [commit()] itself raises after a block that completed
    normally, the [except] clause of the scope rolls back, once, and the
    error of [commit()] is what the scope raises. *)
Lemma commit_failure_rolls_back (con : connection) (b : caller_block)
    (s : state) (e : exn) :
  on_connect con = None -> on_cursor con = None ->
  on_cursor_close con = None -> block_outcome b = None ->
  on_commit con = Some e ->
  invocations ECommit (fst (commit con b s)) = invocations ECommit s + 1 /\
  invocations ERollback (fst (commit con b s)) = invocations ERollback s + 1 /\
  (on_rollback con = None -> on_close con = None ->
   snd (commit con b s) = Raise e).
Proof.
  intros Hconnect Hcursor Hrelease Hb Hcommit. scope_cases con b. scope_solve.
Qed.

(** C2. Under the rollback scope, with a connection that was opened and
    gave a cursor (the caller's block is run), [rollback()] is invoked
    exactly once, whether the block completes normally or raises, and
    [commit()] never; when the block raises [e] the scope raises too, and
    what it raises is [e] itself once the cursor release, the rollback and
    the close have returned. *)
Theorem rollback_scope (con : connection) (b : caller_block) (s : state) :
  on_connect con = None -> on_cursor con = None ->
  let s' := fst (rollback con b s) in
  let r := snd (rollback con b s) in
  invocations ERollback s' = invocations ERollback s + 1 /\
  invocations ECommit s' = invocations ECommit s /\
  (block_outcome b = None ->
   on_cursor_close con = None -> on_rollback con = None ->
   on_close con = None -> r = Ok tt) /\
  (forall e, block_outcome b = Some e ->
   (exists e', r = Raise e') /\
   (on_cursor_close con = None -> on_rollback con = None ->
    on_close con = None -> r = Raise e)).
Proof.
  intros Hconnect Hcursor. scope_cases con b. repeat split.
  - scope_solve.
  - scope_solve.
  - intros -> -> -> ->. scope_solve.
  - subst. scope_solve.
  - intros -> -> ->. subst. scope_solve.
Qed.

(** [commit_scope] at a block that returns and at one that is
    interrupted. *)
Lemma commit_scope_witness :
  (invocations ECommit (fst (commit reliable quiet_block initial)) = 1 /\
   invocations ERollback (fst (commit reliable quiet_block initial)) = 0 /\
   snd (commit reliable quiet_block initial) = Ok tt) /\
  (invocations ERollback (fst (commit reliable interrupted_block initial)) = 1 /\
   invocations ECommit (fst (commit reliable interrupted_block initial)) = 0 /\
   snd (commit reliable interrupted_block initial) = Raise KeyboardInterrupt).
Proof.
  split.
  - destruct (commit_scope reliable quiet_block initial eq_refl eq_refl)
      as [Hnormal _].
    destruct (Hnormal eq_refl eq_refl eq_refl) as (Hc & Hr & Hok).
    exact (conj Hc (conj Hr (Hok eq_refl))).
  - destruct (commit_scope reliable interrupted_block initial eq_refl eq_refl)
      as [_ Hraise].
    destruct (Hraise KeyboardInterrupt eq_refl) as (Hr & Hc & Hre).
    exact (conj Hr (conj Hc (Hre eq_refl eq_refl eq_refl))).
Defined.

(** [rollback_scope] at the same two blocks. *)
Lemma rollback_scope_witness :
  invocations ERollback (fst (rollback reliable interrupted_block initial)) = 1 /\
  invocations ECommit (fst (rollback reliable interrupted_block initial)) = 0 /\
  snd (rollback reliable interrupted_block initial) = Raise KeyboardInterrupt /\
  snd (rollback reliable quiet_block initial) = Ok tt.
Proof.
  destruct (rollback_scope reliable interrupted_block initial eq_refl eq_refl)
    as (Hr & Hc & _ & Hraise).
  destruct (Hraise KeyboardInterrupt eq_refl) as [_ Hre].
  destruct (rollback_scope reliable quiet_block initial eq_refl eq_refl)
    as (_ & _ & Hok & _).
  exact (conj Hr (conj Hc (conj (Hre eq_refl eq_refl eq_refl)
           (Hok eq_refl eq_refl eq_refl eq_refl)))).
Defined.

(** ** The existence checker *)

Lemma for_rows_assert_one desc rs s :
  events (fst (for_rows assert_one desc rs s)) = events s /\
  (snd (for_rows assert_one desc rs s) = Ok tt <-> Forall starts_with_one rs) /\
  (snd (for_rows assert_one desc rs s) = Ok tt \/
   snd (for_rows assert_one desc rs s) = Raise AssertionError \/
   snd (for_rows assert_one desc rs s) = Raise unpack_error).
Proof.
  revert s. induction rs as [|row rs IH]; intros s.
  - simpl. split; [done|]. split; [|by left]. split; [constructor|done].
  - cbn [for_rows]. unfold bind at 1. cbn [fst snd].
    destruct row as [|n row].
    + unfold bind, assert_one, raise. cbn [fst snd].
      split; [done|]. split; [|by right; right].
      split; [discriminate|].
      intros H. inversion H as [|? ? Hrow]; subst. discriminate.
    + unfold bind at 1. unfold assert_one.
      destruct (decide (n = AInt 1)) as [->|Hn].
      * rewrite bool_decide_eq_true_2 by done. unfold ret at 1.
        set (s1 := {| events := events s;
                      result_set := Some {| description := desc; rows := rs |} |}).
        destruct (IH s1) as (Hev & Hok & Hcases).
        split; [done|]. split; [|done].
        split.
        -- intros H. constructor; [reflexivity|]. by apply Hok.
        -- intros H. inversion H; subst. by apply Hok.
      * rewrite bool_decide_eq_false_2 by done. unfold raise. cbn [fst snd].
        split; [done|]. split; [|by right; left].
        split; [discriminate|].
        intros H. inversion H as [|? ? Hrow]; subst.
        unfold starts_with_one in Hrow. simpl in Hrow. congruence.
Qed.

Lemma for_rows_state_irrelevant desc desc' rs s s' :
  snd (for_rows assert_one desc rs s) = snd (for_rows assert_one desc' rs s').
Proof.
  revert s s'. induction rs as [|row rs IH]; intros s s'; [done|].
  cbn [for_rows]. unfold bind at 1 3. cbn [fst snd].
  destruct row as [|n row]; [done|].
  unfold bind at 1 2. unfold assert_one.
  destruct (bool_decide (n = AInt 1)); [|done].
  unfold ret at 1 2. apply IH.
Qed.

Lemma probe_run d self table s :
  events (fst (probe d self table s)) = events s ++ probe_events self table /\
  snd (probe d self table s) = probe_result d self table.
Proof.
  unfold probe_result, probe, probe_events, bind, lift. cbn [fst snd].
  destruct (extant self table) as [statement|e]; cbn [fst snd].
  - repeat (rewrite ?log_add; cbn [fst snd]).
    unfold execute. cbn [events add_events result_set].
    destruct (d statement None) as [r|e]; cbn [fst snd].
    + unfold for_cursor. cbn [result_set]. split.
      * match goal with
        | |- events (for_rows _ _ _ ?s1).1 = _ =>
            destruct (for_rows_assert_one (description r) (rows r) s1)
              as (Hev1 & _)
        end.
        rewrite Hev1. unfold add_events. cbn [events]. by rewrite <- !app_assoc.
      * apply for_rows_state_irrelevant.
    + split; [|done]. unfold add_events. cbn [events]. by rewrite <- !app_assoc.
  - split; [|done]. by rewrite app_nil_r.
Qed.

(** The probe passes exactly when the statement is built and executed
    without an exception and every row starts with [1]. *)
Lemma probe_result_ok d self table :
  probe_result d self table = Ok tt <->
  exists statement r,
    extant self table = Ok statement /\ d statement None = Ok r /\
    Forall starts_with_one (rows r).
Proof.
  unfold probe_result, probe, bind, lift. cbn [fst snd].
  destruct (extant self table) as [statement|e]; cbn [fst snd].
  - repeat (rewrite ?log_add; cbn [fst snd]).
    unfold execute. cbn [events add_events result_set].
    destruct (d statement None) as [r|e] eqn:Hd; cbn [fst snd].
    + unfold for_cursor. cbn [result_set].
      match goal with
      | |- (for_rows _ _ _ ?s1).2 = _ <-> _ =>
          destruct (for_rows_assert_one (description r) (rows r) s1)
            as (_ & Hok & _)
      end.
      rewrite Hok. split.
      * intros H. exists statement, r. auto.
      * intros (st & r' & Hst & Hr & H). congruence.
    + split; [discriminate|]. intros (st & r' & Hst & Hr & H). congruence.
  - split; [discriminate|]. intros (st & r' & Hst & Hr & H). congruence.
Qed.

(** One round of the loop of [check]: the probe of [table], and the
    [except] clause when it raises. *)
Lemma check_table_step d self exceptions table errors s :
  let m :=
    try_except
      (probe d self table ;;; ret errors)
      (fun e =>
         if isinstance e exceptions
         then log Warning ERROR [table] ;;; ret (errors ++ [table])
         else raise e) in
  events (fst (m s)) =
    events s ++ probe_events self table ++
    match probe_result d self table with
    | Ok _ => []
    | Raise e =>
        if isinstance e exceptions then [ELog Warning ERROR [table]] else []
    end /\
  snd (m s) =
    match probe_result d self table with
    | Ok _ => Ok errors
    | Raise e =>
        if isinstance e exceptions then Ok (errors ++ [table]) else Raise e
    end.
Proof.
  cbn zeta. unfold try_except, bind at 1 3.
  destruct (probe_run d self table s) as [Hev Hres].
  destruct (probe d self table s) as [s1 r1]. cbn [fst snd] in Hev, Hres.
  rewrite <- Hres. destruct r1 as [[]|e].
  - unfold ret. cbn [fst snd]. by rewrite Hev, app_nil_r.
  - destruct (isinstance e exceptions).
    + unfold bind. rewrite log_add. unfold ret, add_events. cbn [fst snd events].
      by rewrite Hev, app_assoc.
    + unfold raise. cbn [fst snd]. by rewrite Hev, app_nil_r.
Qed.

Lemma bind_run {A B} (m : M A) (k : A -> M B) (s : state) :
  bind m k s =
  match m s with
  | (s', Ok a) => k a s'
  | (s', Raise e) => (s', Raise e)
  end.
Proof. reflexivity. Qed.

Lemma executed_app l1 l2 : executed (l1 ++ l2) = executed l1 ++ executed l2.
Proof. apply omap_app. Qed.

Lemma executed_probe_events self table :
  executed (probe_events self table) = option_list (statement_of self table).
Proof.
  unfold probe_events, statement_of. by destruct (extant self table).
Qed.

(** The loop of [check] when every exception that a probe raises is in
    the supplied set: all the tables are probed, and the failing ones are
    collected in order. *)
Lemma check_tables_run d self exceptions ts errors s :
  (forall table e, table ∈ ts -> probe_result d self table = Raise e ->
                   isinstance e exceptions = true) ->
  executed (events (fst (check_tables d self exceptions ts errors s))) =
    executed (events s) ++ omap (statement_of self) ts /\
  snd (check_tables d self exceptions ts errors s) =
    Ok (errors ++ filter (fun t => probe_result d self t <> Ok tt) ts).
Proof.
  revert errors s. induction ts as [|t ts IH]; intros errors s Hcaught.
  - simpl. unfold ret. cbn [fst snd]. by rewrite !app_nil_r.
  - cbn [check_tables]. rewrite bind_run.
    destruct (check_table_step d self exceptions t errors s) as [Hev Hres].
    cbn zeta in Hev, Hres.
    match goal with
    | |- context [match ?m s with _ => _ end] => destruct (m s) as [s1 r1]
    end.
    cbn [fst snd] in Hev, Hres.
    assert (Hrest : forall table e, table ∈ ts ->
              probe_result d self table = Raise e ->
              isinstance e exceptions = true).
    { intros table e Hin. apply Hcaught. by right. }
    rewrite filter_cons. cbn [omap list_omap].
    destruct (probe_result d self t) as [[]|e] eqn:Hprobe.
    + subst r1. cbv beta iota. destruct (IH errors s1 Hrest) as [IHev IHres].
      rewrite IHev, IHres, Hev, !executed_app, executed_probe_events.
      rewrite decide_False by (intros H; by apply H).
      split; [|done].
      destruct (statement_of self t); simpl; by rewrite ?app_nil_r, <- ?app_assoc.
    + rewrite (Hcaught t e) in Hev, Hres by (done || by left).
      subst r1. cbv beta iota. destruct (IH (errors ++ [t]) s1 Hrest) as [IHev IHres].
      rewrite IHev, IHres, Hev, !executed_app, executed_probe_events.
      rewrite decide_True by done.
      split; [|by rewrite <- app_assoc].
      destruct (statement_of self t); simpl; by rewrite ?app_nil_r, <- ?app_assoc.
Qed.

(** An exception outside the supplied set is not caught: it leaves
    [check] at the first table whose probe raises it, and the tables after
    it are not probed. *)
Lemma check_tables_propagates d self exceptions ts1 t ts2 errors s e :
  (forall table e', table ∈ ts1 -> probe_result d self table = Raise e' ->
                    isinstance e' exceptions = true) ->
  probe_result d self t = Raise e ->
  isinstance e exceptions = false ->
  snd (check_tables d self exceptions (ts1 ++ t :: ts2) errors s) = Raise e /\
  executed (events (fst (check_tables d self exceptions (ts1 ++ t :: ts2)
                           errors s))) =
    executed (events s) ++ omap (statement_of self) (ts1 ++ [t]).
Proof.
  revert errors s. induction ts1 as [|t1 ts1 IH]; intros errors s Hcaught He Hout.
  - cbn [app check_tables]. rewrite bind_run.
    destruct (check_table_step d self exceptions t errors s) as [Hev Hres].
    cbn zeta in Hev, Hres.
    match goal with
    | |- context [match ?m s with _ => _ end] => destruct (m s) as [s1 r1]
    end.
    cbn [fst snd] in Hev, Hres. rewrite He, Hout in Hev, Hres. subst r1.
    cbn [fst snd omap list_omap]. split; [done|].
    rewrite Hev, !executed_app, executed_probe_events.
    by destruct (statement_of self t).
  - cbn [app check_tables]. rewrite bind_run.
    destruct (check_table_step d self exceptions t1 errors s) as [Hev Hres].
    cbn zeta in Hev, Hres.
    match goal with
    | |- context [match ?m s with _ => _ end] => destruct (m s) as [s1 r1]
    end.
    cbn [fst snd] in Hev, Hres.
    assert (Hrest : forall table e', table ∈ ts1 ->
              probe_result d self table = Raise e' ->
              isinstance e' exceptions = true).
    { intros table e' Hin. apply Hcaught. by right. }
    assert (Hs1 : executed (events s1) =
                  executed (events s) ++ option_list (statement_of self t1)).
    { rewrite Hev, !executed_app, executed_probe_events.
      destruct (probe_result d self t1) as [[]|e1];
        [|destruct (isinstance e1 exceptions)]; cbn; by rewrite app_nil_r. }
    assert (Hr1 : exists errors1, r1 = Ok errors1).
    { destruct (probe_result d self t1) as [[]|e1] eqn:Hp; [by eexists|].
      rewrite (Hcaught t1 e1) in Hres by (done || by left). by eexists. }
    destruct Hr1 as [errors1 ->]. cbv beta iota.
    destruct (IH errors1 s1 Hrest He Hout) as [IHres IHev].
    split; [done|]. rewrite IHev, Hs1. cbn [omap list_omap].
    fold (omap (statement_of self) (ts1 ++ [t])).
    destruct (statement_of self t1); simpl; by rewrite <- ?app_assoc.
Qed.

(** C3. When every exception that a probe raises is in the supplied set,
    [check] probes every table in order (the statement of each well-formed
    table name is executed, whatever happened to the tables before it) and
    then raises the aggregated error that lists exactly the tables whose
    probe raised, in order, or returns normally when there is none. *)
Theorem check_aggregates (d : driver) (self : AbstractPersistor)
    (exceptions : list exn_class) (s : state) :
  (forall table e, table ∈ tables self ->
                   probe_result d self table = Raise e ->
                   isinstance e exceptions = true) ->
  let failed := filter (fun t => probe_result d self t <> Ok tt) (tables self) in
  executed (events (fst (check d self exceptions s))) =
    executed (events s) ++ omap (statement_of self) (tables self) /\
  snd (check d self exceptions s) =
    match failed with
    | [] => Ok tt
    | _ :: _ => Raise (RuntimeError ERRORS failed)
    end.
Proof.
  intros Hcaught failed. unfold check. rewrite bind_run, log_add.
  rewrite bind_run.
  destruct (check_tables_run d self exceptions (tables self) []
              (add_events s [ELog Info ON []]) Hcaught) as [Hev Hres].
  destruct (check_tables d self exceptions (tables self) []
              (add_events s [ELog Info ON []])) as [s1 r1].
  cbn [fst snd] in Hev, Hres. subst r1. cbn [app]. fold failed.
  assert (Hs1 : executed (events s1) =
                executed (events s) ++ omap (statement_of self) (tables self)).
  { rewrite Hev. unfold add_events. cbn [events].
    by rewrite executed_app, app_nil_r. }
  destruct failed as [|t failed'].
  - rewrite log_add. cbn [fst snd]. split; [|done].
    unfold add_events. cbn [events]. by rewrite executed_app, Hs1, app_nil_r.
  - unfold raise. cbn [fst snd]. by split.
Qed.

(** C8 (as amended). The probe of a table passes exactly when its
    statement is built and executed without an exception and every row
    that the cursor yields starts with [1], however many rows there are;
    a row that does not makes the probe raise [AssertionError] (or the
    unpacking error, for an empty row); and a probe that raises [e] marks
    the table as failed when [e] is in the supplied set, and otherwise
    [e] leaves [check]. *)
Theorem existence_probe (d : driver) (self : AbstractPersistor)
    (table : string) :
  (probe_result d self table = Ok tt <->
   exists statement r,
     extant self table = Ok statement /\ d statement None = Ok r /\
     Forall starts_with_one (rows r)) /\
  (forall statement r,
     extant self table = Ok statement -> d statement None = Ok r ->
     ~ Forall starts_with_one (rows r) ->
     probe_result d self table = Raise AssertionError \/
     probe_result d self table = Raise unpack_error) /\
  (forall exceptions errors s e,
     probe_result d self table = Raise e ->
     snd (check_tables d self exceptions [table] errors s) =
     if isinstance e exceptions then Ok (errors ++ [table]) else Raise e).
Proof.
  split; [apply probe_result_ok|]. split.
  - intros statement r Hst Hd Hrows.
    assert (Hnot : probe_result d self table <> Ok tt).
    { intros H. apply probe_result_ok in H as (st & r' & Hst' & Hd' & H).
      apply Hrows. congruence. }
    revert Hnot.
    unfold probe_result, probe, bind, lift. cbn [fst snd]. rewrite Hst.
    repeat (rewrite ?log_add; cbn [fst snd]).
    unfold execute. cbn [events add_events result_set]. rewrite Hd.
    unfold for_cursor. cbn [fst snd result_set].
    match goal with
    | |- (for_rows _ _ _ ?s1).2 <> _ -> _ =>
        destruct (for_rows_assert_one (description r) (rows r) s1)
          as (_ & _ & [H|[H|H]])
    end; rewrite H; [done|by left|by right].
  - intros exceptions errors s e He. cbn [check_tables]. rewrite bind_run.
    destruct (check_table_step d self exceptions table errors s) as [_ Hres].
    cbn zeta in Hres.
    match goal with
    | |- context [match ?m s with _ => _ end] => destruct (m s) as [s1 r1]
    end.
    cbn [snd] in Hres. rewrite He in Hres. subst r1.
    by destruct (isinstance e exceptions).
Qed.

(** ** Identifiers and [extant] *)

Lemma star_unfold cls r start c s :
  Re.match_here (Re.Star cls :: r) start (String c s) =
  (Re.class_mem cls c && Re.match_here (Re.Star cls :: r) false s)
  || Re.match_here r start (String c s).
Proof. reflexivity. Qed.

Lemma star_empty cls r start :
  Re.match_here (Re.Star cls :: r) start EmptyString =
  Re.match_here r start EmptyString.
Proof. reflexivity. Qed.

Lemma eol_only start s : Re.match_here [Re.Eol] start s = Re.at_eol s.
Proof. simpl. by rewrite andb_true_r. Qed.

Lemma newline_not_tail : Re.class_mem tail_class Re.newline = false.
Proof. reflexivity. Qed.

Lemma at_eol_shape s :
  Re.at_eol s = true <-> s = EmptyString \/ s = line_feed.
Proof.
  destruct s as [|c [|c' s]]; simpl.
  - split; auto.
  - rewrite bool_decide_eq_true. unfold line_feed. split.
    + intros ->. by right.
    + intros [H|H]; [discriminate|]. by injection H.
  - split; [discriminate|]. intros [H|H]; discriminate.
Qed.

Lemma star_eol_shape start s :
  Re.match_here [Re.Star tail_class; Re.Eol] start s = true <->
  exists body, all_in tail_class body = true /\
               (s = body \/ s = body +:+ line_feed).
Proof.
  revert start. induction s as [|c s IH]; intros start.
  - rewrite star_empty, eol_only. split; [|done].
    intros _. exists EmptyString. auto.
  - rewrite star_unfold, eol_only, orb_true_iff, andb_true_iff, IH, at_eol_shape.
    split.
    + intros [[Hc (body & Hbody & Hs)]|[H|H]].
      * exists (String c body). split; [cbn [all_in]; by rewrite Hc, Hbody|].
        destruct Hs as [->| ->]; [by left|by right].
      * discriminate.
      * exists EmptyString. split; [done|]. right. exact H.
    + intros (body & Hbody & Hs).
      destruct body as [|c' body].
      * destruct Hs as [Hs|Hs]; [discriminate|]. right. right. exact Hs.
      * cbn [all_in] in Hbody. apply andb_true_iff in Hbody as [Hc Hbody].
        left. 
        assert (c = c') as -> by (destruct Hs as [Hs|Hs]; by injection Hs).
        split; [done|]. exists body. split; [done|].
        destruct Hs as [Hs|Hs]; injection Hs as ->; auto.
Qed.

(** X3. The names that [ALPHA_NUMERIC_DOT] matches are a letter or an
    underscore followed by letters, digits, underscores and dots, and the
    same names followed by one line feed. *)
Lemma identifier_shape s :
  Re.re_match ALPHA_NUMERIC_DOT s = true <->
  exists c body,
    Re.class_mem head_class c = true /\ all_in tail_class body = true /\
    (s = String c body \/ s = String c (body +:+ line_feed)).
Proof.
  unfold Re.re_match, ALPHA_NUMERIC_DOT. cbn [Re.match_here andb].
  destruct s as [|c s].
  - split; [discriminate|]. intros (c & body & _ & _ & [H|H]); discriminate.
  - fold head_class. fold tail_class.
    change ((fix star (start : bool) (s0 : string) {struct s0} : bool := _) false s) with (Re.match_here [Re.Star tail_class; Re.Eol] false s).
    rewrite andb_true_iff, star_eol_shape. split.
    + intros [Hc (body & Hbody & Hs)]. exists c, body.
      destruct Hs as [->| ->]; auto.
    + intros (c' & body & Hc & Hbody & Hs).
      assert (c = c') as -> by (destruct Hs as [Hs|Hs]; by injection Hs).
      split; [done|]. exists body. split; [done|].
      destruct Hs as [Hs|Hs]; injection Hs as ->; auto.
Qed.

Lemma append_cons c s r : String c s +:+ r = String c (s +:+ r).
Proof. reflexivity. Qed.

Lemma append_nil r : EmptyString +:+ r = r.
Proof. reflexivity. Qed.

Lemma append_nil_r s : s +:+ EmptyString = s.
Proof. induction s as [|c s IH]; [done|]. by rewrite append_cons, IH. Qed.

Lemma app_ok_cons c s r :
  Fmt.cons_ok c (Fmt.app_ok (Ok s) r) = Fmt.app_ok (Ok (String c s)) r.
Proof. by destruct r. Qed.

Lemma app_ok_nil r : Fmt.app_ok (Ok EmptyString) r = r.
Proof. by destruct r. Qed.

Lemma format_text kwargs pre rest :
  brace_free pre = true ->
  Fmt.go kwargs None (pre +:+ rest) =
  Fmt.app_ok (Ok pre) (Fmt.go kwargs None rest).
Proof.
  induction pre as [|c pre IH]; intros Hfree.
  - by rewrite append_nil, app_ok_nil.
  - cbn [brace_free] in Hfree.
    apply andb_true_iff in Hfree as [Hc Hfree].
    apply andb_true_iff in Hc as [Hopen Hclose].
    apply negb_true_iff in Hopen, Hclose.
    rewrite append_cons. cbn [Fmt.go]. rewrite Hopen, Hclose, (IH Hfree).
    apply app_ok_cons.
Qed.

Lemma format_table_field table rest :
  Fmt.go {[ "table" := table ]} None ("{table}" +:+ rest) =
  Fmt.app_ok (Ok table) (Fmt.go {[ "table" := table ]} None rest).
Proof.
  vm_compute. reflexivity.
Qed.

Lemma format_slot table pre post :
  brace_free pre = true -> brace_free post = true ->
  Fmt.format (pre +:+ "{table}" +:+ post) {[ "table" := table ]} =
  Ok (pre +:+ table +:+ post).
Proof.
  intros Hpre Hpost. unfold Fmt.format.
  rewrite (format_text _ pre _ Hpre), format_table_field.
  rewrite <- (append_nil_r post) at 1.
  rewrite (format_text _ post _ Hpost). cbn [Fmt.go Fmt.app_ok].
  by rewrite append_nil_r.
Qed.

(** C7. For a table name that [ALPHA_NUMERIC_DOT] does not match,
    [extant] raises the [ValueError] that names the table as given, and
    the probe of [check] stops there with the state untouched: no
    statement is executed.  For a name that matches, the statement is the
    [extant] template of the asset formatted with that name, which is put
    unchanged in the place of the [{table}] field. *)
Theorem extant_identifier (self : AbstractPersistor) (table : string) :
  (Re.re_match ALPHA_NUMERIC_DOT table = false ->
   extant self table = Raise (not_identifier table) /\
   forall d s, probe d self table s = (s, Raise (not_identifier table)))
  /\
  (Re.re_match ALPHA_NUMERIC_DOT table = true ->
   extant self table =
     Fmt.format (extant_template (sql self)) {[ "table" := table ]} /\
   forall pre post,
     extant_template (sql self) = pre +:+ "{table}" +:+ post ->
     brace_free pre = true -> brace_free post = true ->
     extant self table = Ok (pre +:+ table +:+ post)).
Proof.
  split; intros Hmatch.
  - assert (Hextant : extant self table = Raise (not_identifier table)).
    { unfold extant. by rewrite Hmatch. }
    split; [exact Hextant|]. intros d s.
    unfold probe. rewrite bind_run. unfold lift. by rewrite Hextant.
  - assert (Hextant : extant self table =
              Fmt.format (extant_template (sql self)) {[ "table" := table ]}).
    { unfold extant. by rewrite Hmatch. }
    split; [exact Hextant|]. intros pre post Htemplate Hpre Hpost.
    rewrite Hextant, Htemplate. by apply format_slot.
Qed.

(** ** Chunks and the chunked query *)

Lemma chunks_nil {A} (n : nat) : chunks (@nil A) n = [].
Proof. reflexivity. Qed.

Lemma chunks_fuel_join {A} (fuel n : nat) (l : list A) :
  0 < n -> length l <= fuel ->
  List.concat (chunks_fuel fuel l n) = l /\
  Forall (fun c => 0 < length c <= n) (chunks_fuel fuel l n).
Proof.
  intros Hn. revert l. induction fuel as [|fuel IH]; intros l Hlen.
  - destruct l; [|simpl in Hlen; lia]. split; [done|constructor].
  - destruct l as [|x l]; [split; [done|constructor]|].
    cbn [chunks_fuel]. set (l0 := x :: l) in *.
    assert (Hdrop : length (drop n l0) <= fuel).
    { rewrite length_drop. subst l0. simpl in *. lia. }
    destruct (IH (drop n l0) Hdrop) as [Hjoin Hall]. split.
    + cbn [List.concat]. rewrite Hjoin. apply take_drop.
    + constructor; [|done]. rewrite length_take. subst l0. simpl. lia.
Qed.

Lemma chunks_join {A} (n : nat) (l : list A) :
  0 < n ->
  List.concat (chunks l n) = l /\
  Forall (fun c => 0 < length c <= n) (chunks l n).
Proof. intros Hn. by apply chunks_fuel_join. Qed.

Lemma chunks_not_nil {A} (n : nat) (l : list A) : l <> [] -> chunks l n <> [].
Proof. by destruct l. Qed.

Lemma chunks_fuel_lengths {A} (fuel n : nat) (l : list A) :
  map length (chunks_fuel fuel l n) =
  map length (chunks_fuel fuel (replicate (length l) tt) n).
Proof.
  revert l. induction fuel as [|fuel IH]; intros l; [done|].
  destruct l as [|x l]; [done|].
  cbn [chunks_fuel length replicate]. cbn [map]. f_equal.
  - rewrite !length_take. cbn [length]. by rewrite length_replicate.
  - rewrite IH. f_equal. f_equal.
    change (tt :: replicate (length l) tt) with (replicate (S (length l)) tt).
    by rewrite drop_replicate, length_drop.
Qed.

(** The sizes of the chunks depend on the number of items only. *)
Lemma chunks_lengths {A} (n : nat) (l : list A) :
  map length (chunks l n) = map length (chunks (replicate (length l) tt) n).
Proof.
  unfold chunks. rewrite chunks_fuel_lengths. by rewrite length_replicate.
Qed.

Lemma bind_ids_lookup_ids chunk parameters :
  parameters !! "ids" = None ->
  bind_ids chunk parameters !! "ids" = Some (Sequence chunk).
Proof.
  intros Hnone. unfold bind_ids.
  rewrite lookup_union_r by done. apply lookup_singleton_eq.
Qed.

Lemma bind_ids_lookup_other chunk parameters key :
  key <> "ids" ->
  bind_ids chunk parameters !! key = parameters !! key.
Proof.
  intros Hkey. unfold bind_ids.
  destruct (parameters !! key) as [v|] eqn:Hv.
  - by apply lookup_union_Some_l.
  - rewrite lookup_union_r by done. by apply lookup_singleton_ne.
Qed.

Lemma partial_frames_cons rs rss :
  partial_frames (rs :: rss) =
  match rs with
  | _ :: _ => frame_of_rows rs :: partial_frames rss
  | [] => partial_frames rss
  end.
Proof.
  unfold partial_frames. rewrite filter_cons.
  destruct rs; [by rewrite decide_False by auto|by rewrite decide_True].
Qed.

Lemma partial_frames_data rss :
  flat_map data (partial_frames rss) = List.concat rss.
Proof.
  induction rss as [|rs rss IH]; [done|].
  rewrite partial_frames_cons. destruct rs as [|row rs]; [done|].
  cbn [flat_map List.concat]. by rewrite IH.
Qed.

Lemma partial_frames_nil rss :
  partial_frames rss = [] <-> List.concat rss = [].
Proof.
  induction rss as [|rs rss IH]; [done|].
  rewrite partial_frames_cons. destruct rs as [|row rs]; [done|].
  split; discriminate.
Qed.

(** The loop over the chunks when every execution returns. *)
Lemma by_ids_loop_run d query parameters resp cs dfs s :
  (forall c, c ∈ cs ->
             d query (Some (bind_ids c parameters)) = Ok (resp c)) ->
  by_ids_loop d query parameters cs dfs s =
  ({| events := events s ++ map (chunk_execution query parameters) cs;
      result_set :=
        match last cs with
        | Some c =>
            Some {| description := description (resp c); rows := [] |}
        | None => result_set s
        end |},
   Ok (dfs ++ partial_frames (map (fun c => rows (resp c)) cs))).
Proof.
  revert dfs s. induction cs as [|c cs IH]; intros dfs s Hd.
  - cbn. unfold ret. destruct s. cbn. by rewrite !app_nil_r.
  - cbn [by_ids_loop]. rewrite bind_run. unfold execute.
    rewrite (Hd c) by by left. rewrite bind_run. unfold fetchall.
    cbn [result_set events description].
    rewrite IH by (intros c' Hc'; apply Hd; by right).
    cbn [events result_set map]. rewrite partial_frames_cons.
    f_equal.
    + f_equal.
      * by rewrite <- app_assoc.
      * rewrite last_cons. by destruct (last cs).
    + f_equal. destruct (rows (resp c)); [done|]. by rewrite <- app_assoc.
Qed.

Lemma max_list_all (k : nat) (l : list nat) :
  l <> [] -> Forall (fun x => x = k) l -> max_list l = k.
Proof.
  induction l as [|x l IH]; [done|]. intros _ Hall.
  inversion Hall as [|? ? Hx Hrest]; subst. cbn [max_list].
  destruct l as [|y l]; [cbn; lia|]. rewrite IH by done. apply Nat.max_id.
Qed.

Lemma frame_width (k : nat) (rs : list (list atom)) :
  rs <> [] -> Forall (fun row => length row = k) rs ->
  length (columns (frame_of_rows rs)) = k.
Proof.
  intros Hne Hall. unfold frame_of_rows, positions. cbn [columns].
  rewrite length_map, length_seq. apply max_list_all.
  - by destruct rs.
  - by apply Forall_map.
Qed.

Lemma partial_frames_width (k : nat) (rss : list (list (list atom))) :
  Forall (Forall (fun row => length row = k)) rss ->
  partial_frames rss <> [] ->
  max_list (map (fun df => length (columns df)) (partial_frames rss)) = k.
Proof.
  intros Hall Hne. apply max_list_all.
  - by destruct (partial_frames rss).
  - apply Forall_map. unfold partial_frames. apply Forall_map.
    apply Forall_forall. intros rs Hin. cbn.
    apply list_elem_of_filter in Hin as [Hrs Hin].
    apply frame_width; [done|]. by eapply Forall_forall in Hall.
Qed.

(** C4. With an empty sequence of ids the chunked query raises the
    [ValueError] of its guard, and the state it leaves is the state it
    started from: nothing was executed. *)
Theorem by_ids_empty (d : driver) (query : string)
    (parameters : option (gmap string value)) (size : nat) (s : state) :
  df_from_query_by_ids d query [] parameters size s = (s, Raise empty_ids).
Proof.
  unfold df_from_query_by_ids. cbn zeta. rewrite chunks_nil, bind_run.
  cbn [by_ids_loop last]. reflexivity.
Qed.

(** C5. For a positive chunk size and ids that are not empty, when every
    execution returns a table of [k] columns: the chunks are the ids cut
    in order into pieces of at least one and at most [size] items; the
    query is executed once per chunk, in order, with the dict that holds
    the chunk as [ids] beside the entries of the caller's [parameters],
    each under its own key ([None] stands for the empty dict); as soon as
    one chunk has a row, the frame returned holds the rows of all the
    chunks in the order of the chunks, under the column names of the last
    execution; and 25 ids in chunks of 10 make three chunks of 10, 10 and
    5 ids, hence three executions. *)
Theorem chunked_query (d : driver) (query : string) (ids : list atom)
    (parameters : gmap string value) (size : nat)
    (resp : list atom -> response) (k : nat) (s : state) :
  0 < size -> ids <> [] ->
  (forall c, c ∈ chunks ids size ->
     d query (Some (bind_ids c parameters)) = Ok (resp c) /\
     length (description (resp c)) = k /\
     Forall (fun row => length row = k) (rows (resp c))) ->
  let cs := chunks ids size in
  let run := df_from_query_by_ids d query ids (Some parameters) size s in
  List.concat cs = ids /\
  Forall (fun c => 0 < length c <= size) cs /\
  events (fst run) =
    events s ++ map (fun c => EExecute query (Some (bind_ids c parameters))) cs /\
  (forall c, parameters !! "ids" = None ->
     bind_ids c parameters !! "ids" = Some (Sequence c)) /\
  (forall c key, key <> "ids" ->
     bind_ids c parameters !! key = parameters !! key) /\
  (forall s',
     df_from_query_by_ids d query ids None size s' =
     df_from_query_by_ids d query ids (Some ∅) size s') /\
  (flat_map (fun c => rows (resp c)) cs <> [] ->
   exists c_last,
     last cs = Some c_last /\
     snd run =
       Ok {| columns := map Name (description (resp c_last));
             data := flat_map (fun c => rows (resp c)) cs |}) /\
  (length ids = 25 -> size = 10 ->
   map length cs = [10; 10; 5] /\
   length (events (fst run)) = length (events s) + 3).
Proof.
  intros Hsize Hids Hresp cs run.
  change (map (fun c => EExecute query (Some (bind_ids c parameters))) cs)
    with (map (chunk_execution query parameters) cs).
  destruct (chunks_join size ids Hsize) as [Hjoin Hbound].
  assert (Hrun : by_ids_loop d query parameters cs [] s =
    ({| events := events s ++ map (chunk_execution query parameters) cs;
        result_set :=
          match last cs with
          | Some c =>
              Some {| description := description (resp c); rows := [] |}
          | None => result_set s
          end |},
     Ok ([] ++ partial_frames (map (fun c => rows (resp c)) cs)))).
  { apply by_ids_loop_run. intros c Hc. by apply Hresp. }
  assert (Hlast : exists c_last, last cs = Some c_last).
  { destruct (last cs) as [c|] eqn:Hl; [by eexists|].
    apply last_None in Hl. by apply chunks_not_nil in Hl. }
  destruct Hlast as [c_last Hlast].
  assert (Hevents : events (fst run) =
            events s ++ map (chunk_execution query parameters) cs).
  { subst run. unfold df_from_query_by_ids. cbn zeta. cbn [or_empty]. fold cs.
    rewrite bind_run, Hrun, Hlast. cbn [app].
    rewrite bind_run. unfold cursor_description. cbn [result_set].
    rewrite bind_run. unfold lift.
    destruct (concat _) as [df|e]; [|done].
    by destruct (set_columns _ _). }
  split; [exact Hjoin|]. split; [exact Hbound|]. split; [exact Hevents|].
  split; [intros c; apply bind_ids_lookup_ids|].
  split; [intros c key; apply bind_ids_lookup_other|].
  split; [intros s'; reflexivity|].
  split.
  - intros Hrows. exists c_last. split; [done|].
    subst run. unfold df_from_query_by_ids. cbn zeta. cbn [or_empty]. fold cs.
    rewrite bind_run, Hrun, Hlast. cbn [app].
    rewrite bind_run. unfold cursor_description. cbn [result_set].
    rewrite bind_run. unfold lift. cbn [description snd].
    set (rss := map (fun c => rows (resp c)) cs).
    assert (Hflat : List.concat rss = flat_map (fun c => rows (resp c)) cs).
    { subst rss. by rewrite flat_map_concat_map. }
    assert (Hframes : partial_frames rss <> []).
    { rewrite partial_frames_nil, Hflat. exact Hrows. }
    assert (Hwidth :
      max_list (map (fun df => length (columns df)) (partial_frames rss)) = k).
    { apply partial_frames_width; [|done]. subst rss. apply Forall_map.
      apply Forall_forall. intros c Hc. by apply Hresp. }
    unfold concat. destruct (partial_frames rss) as [|df dfs] eqn:Hpf; [done|].
    unfold set_columns. cbn [columns data snd].
    assert (Hk : length (description (resp c_last)) = k).
    { apply Hresp. change (c_last ∈ cs).
      destruct (proj1 (last_Some cs c_last) Hlast) as [l Hl].
      rewrite Hl. apply elem_of_app. right. by left. }
    rewrite bool_decide_eq_true_2.
    + by rewrite <- Hpf, partial_frames_data, Hflat.
    + unfold positions. by rewrite length_map, length_seq, Hwidth, Hk.
  - intros Hlen ->.
    assert (Hsizes : map length cs = [10; 10; 5]).
    { subst cs. by rewrite chunks_lengths, Hlen. }
    split; [exact Hsizes|].
    rewrite Hevents, length_app, length_map.
    by rewrite <- (length_map length cs), Hsizes.
Qed.

(** C10. For a positive chunk size and ids that are not empty, when every
    execution returns and yields no row: a chunk was seen, so the guard on
    empty ids is not what fails; every chunk was executed; and the call
    ends with the [ValueError] of [concat] on the empty list of frames,
    not with an empty frame. *)
Theorem by_ids_no_rows (d : driver) (query : string) (ids : list atom)
    (parameters : option (gmap string value)) (size : nat) (s : state) :
  0 < size -> ids <> [] ->
  (forall c, c ∈ chunks ids size ->
     exists r, d query (Some (bind_ids c (or_empty parameters))) = Ok r /\
               rows r = []) ->
  let run := df_from_query_by_ids d query ids parameters size s in
  last (chunks ids size) <> None /\
  events (fst run) =
    events s ++
    map (chunk_execution query (or_empty parameters)) (chunks ids size) /\
  snd run = Raise no_objects /\
  no_objects <> empty_ids.
Proof.
  intros Hsize Hids Hresp run.
  set (cs := chunks ids size) in *.
  set (resp := fun c =>
         match d query (Some (bind_ids c (or_empty parameters))) with
         | Ok r => r
         | Raise _ => {| description := []; rows := [] |}
         end).
  assert (Hd : forall c, c ∈ cs ->
            d query (Some (bind_ids c (or_empty parameters))) = Ok (resp c)).
  { intros c Hc. destruct (Hresp c Hc) as (r & Hr & _). subst resp.
    cbn beta. by rewrite Hr. }
  assert (Hempty : partial_frames (map (fun c => rows (resp c)) cs) = []).
  { apply partial_frames_nil. clear Hd. induction cs as [|c cs' IH]; [done|].
    cbn [map List.concat].
    rewrite IH by (intros c' Hc'; apply Hresp; by right).
    destruct (Hresp c) as (r & Hr & Hrows); [by left|].
    subst resp. cbn beta. by rewrite Hr, Hrows. }
  assert (Hlast : exists c_last, last cs = Some c_last).
  { destruct (last cs) as [c|] eqn:Hl; [by eexists|].
    apply last_None in Hl. by apply chunks_not_nil in Hl. }
  destruct Hlast as [c_last Hlast].
  assert (Hrun : run =
    ({| events := events s ++
                  map (chunk_execution query (or_empty parameters)) cs;
        result_set :=
          Some {| description := description (resp c_last); rows := [] |} |},
     Raise no_objects)).
  { subst run. unfold df_from_query_by_ids. cbn zeta. fold cs.
    rewrite bind_run, (by_ids_loop_run _ _ _ resp) by done.
    rewrite Hlast, Hempty. reflexivity. }
  rewrite Hrun, Hlast. by repeat split.
Qed.

(** ** The keyed union clause *)

Lemma mogrify_text_char dia ps c q :
  c <> "%"%char ->
  mogrify_go dia Text ps (String c q) =
  Fmt.cons_ok c (mogrify_go dia Text ps q).
Proof. intros Hc. cbn [mogrify_go]. by rewrite bool_decide_eq_false_2. Qed.

Lemma mogrify_text dia ps pre rest :
  percent_free pre = true ->
  mogrify_go dia Text ps (pre +:+ rest) =
  Fmt.app_ok (Ok pre) (mogrify_go dia Text ps rest).
Proof.
  induction pre as [|c pre IH]; intros Hfree.
  - by rewrite append_nil, app_ok_nil.
  - cbn [percent_free] in Hfree. apply andb_true_iff in Hfree as [Hc Hfree].
    apply negb_true_iff, bool_decide_eq_false in Hc.
    rewrite append_cons, mogrify_text_char, (IH Hfree) by done.
    apply app_ok_cons.
Qed.

Lemma mogrify_placeholder dia v vs q :
  mogrify_go dia Text (Positional (v :: vs)) ("%s" +:+ q) =
  Fmt.app_ok (Ok (render dia v)) (mogrify_go dia Text (Positional vs) q).
Proof. reflexivity. Qed.

Lemma app_ok_assoc a b r :
  Fmt.app_ok (Ok a) (Fmt.app_ok (Ok b) r) = Fmt.app_ok (Ok (a +:+ b)) r.
Proof.
  destruct r as [c|e]; [|done]. cbn [Fmt.app_ok]. f_equal.
  induction a as [|x a IH]; [done|]. by rewrite !append_cons, IH.
Qed.

Lemma mogrify_fragment dia k vs rest :
  mogrify_go dia Text (Positional (Scalar k :: vs))
    ("union all select %s" +:+ rest) =
  Fmt.app_ok (Ok (fragment dia k))
    (mogrify_go dia Text (Positional vs) rest).
Proof.
  change ("union all select %s" +:+ rest)
    with ("union all select " +:+ ("%s" +:+ rest)).
  rewrite mogrify_text by reflexivity.
  rewrite mogrify_placeholder. apply app_ok_assoc.
Qed.

Lemma concat_cons2 sep (a b : string) (l : list string) :
  String.concat sep (a :: b :: l) = a +:+ sep +:+ String.concat sep (b :: l).
Proof. reflexivity. Qed.

Lemma union_all_clause dia keys : union_all dia keys = Ok (clause dia keys).
Proof.
  unfold union_all, clause, mogrify. cbn zeta.
  induction keys as [|k keys IH]; [reflexivity|].
  destruct keys as [|k' keys].
  - cbn [map String.concat].
    rewrite <- (append_nil_r "union all select %s").
    rewrite mogrify_fragment. cbn [mogrify_go Fmt.app_ok].
    by rewrite append_nil_r.
  - cbn [map] in *. rewrite !concat_cons2, mogrify_fragment.
    rewrite mogrify_text by reflexivity. rewrite IH.
    cbn [Fmt.app_ok]. reflexivity.
Qed.

Lemma union_all_items_clauses dia groups :
  union_all_items dia groups =
  Ok (map (fun group => (fst group, clause dia (snd group))) groups).
Proof.
  induction groups as [|[name keys] groups IH]; [reflexivity|].
  cbn [union_all_items map fst snd]. by rewrite union_all_clause, IH.
Qed.

(** C6. For every sequence of keys and every dialect, [union_all] returns
    the [union all select] fragments of the keys, one per key and in the
    order of the keys (the fragment at a position is that of the key at
    that position), each with the literal that the dialect renders for
    its key, joined by the separator; three keys give three fragments;
    and [df_from_query_by_keys] builds this clause for each of its key
    groups. *)
Theorem union_all_fragments (dia : dialect) (keys : list atom) :
  union_all dia keys =
    Ok (String.concat union_separator (map (fragment dia) keys)) /\
  length (map (fragment dia) keys) = length keys /\
  (forall i k, keys !! i = Some k ->
     map (fragment dia) keys !! i = Some (fragment dia k)) /\
  (forall k1 k2 k3,
     union_all dia [k1; k2; k3] =
     Ok (fragment dia k1 +:+ union_separator +:+
         fragment dia k2 +:+ union_separator +:+ fragment dia k3)) /\
  (forall groups,
     union_all_items dia groups =
     Ok (map (fun group => (fst group, clause dia (snd group))) groups)).
Proof.
  split; [apply union_all_clause|]. split; [apply length_map|].
  split; [intros i k Hk; by rewrite list_lookup_fmap, Hk|].
  split; [intros k1 k2 k3; apply union_all_clause|].
  apply union_all_items_clauses.
Qed.

(** The statement that [df_from_query_by_keys] executes is the template
    with the clause of each key group in the place of its field, rendered
    with the parameters. *)
Lemma by_keys_statement dia d query groups parameters s query' rendered :
  Fmt.format query
    (list_to_map (map (fun group => (fst group, clause dia (snd group)))
                    groups)) = Ok query' ->
  mogrify dia query' (Named (or_empty parameters)) = Ok rendered ->
  executed (events (fst (df_from_query_by_keys dia d query (Some groups)
                           parameters s))) =
  executed (events s) ++ [rendered].
Proof.
  intros Hformat Hrender. unfold df_from_query_by_keys. cbn zeta.
  rewrite bind_run. unfold lift at 1. rewrite union_all_items_clauses.
  rewrite bind_run. unfold lift at 1. rewrite Hformat.
  rewrite bind_run. unfold lift at 1. rewrite Hrender.
  rewrite bind_run, emit_add, bind_run. unfold execute.
  cbn [events add_events].
  assert (Hexecuted :
    executed ((events s ++ [EWrite rendered]) ++ [EExecute rendered None]) =
    executed (events s) ++ [rendered]).
  { rewrite !executed_app. cbn. by rewrite app_nil_r. }
  destruct (d rendered None) as [r|e]; [|exact Hexecuted].
  rewrite bind_run. unfold fetchall. cbn [result_set events].
  rewrite bind_run. unfold cursor_description. cbn [result_set].
  unfold lift. cbn [fst events]. exact Hexecuted.
Qed.

Example by_keys_example :
  executed (events (fst (df_from_query_by_keys plain scores_missing
    "select * from t join (select null as k {k}) as g on t.k = g.k where t.v > %(v)s"
    (Some [("k", [AInt 1; AInt 2; AInt 3])])
    (Some {[ "v" := Scalar (AInt 10) ]}) initial))) =
  [ "select * from t join (select null as k "
    +:+ "union all select 1" +:+ union_separator
    +:+ "union all select 2" +:+ union_separator
    +:+ "union all select 3"
    +:+ ") as g on t.k = g.k where t.v > 10" ].
Proof. reflexivity. Qed.

(** ** The YAML mapping *)

Lemma yaml_init_as_yaml (self : Persistor) :
  _yaml_init (as_yaml self) = Ok self.
Proof. destruct self as [db h pw pt u [a ts]]. reflexivity. Qed.

Lemma as_yaml_dom (self : Persistor) : dom (as_yaml self) = init_keywords.
Proof. destruct self as [db h pw pt u [a ts]]. reflexivity. Qed.

Lemma as_yaml_lookup_other (self : Persistor) (key : string) :
  key ∉ init_keywords -> as_yaml self !! key = None.
Proof.
  intros Hkey. apply not_elem_of_dom. by rewrite as_yaml_dom.
Qed.

(** A mapping that [_yaml_init] accepts is the mapping of the persistor
    that it builds. *)
Lemma yaml_init_inv (mapping : gmap string yaml) (self : Persistor) :
  _yaml_init mapping = Ok self -> as_yaml self = mapping.
Proof.
  unfold _yaml_init. case_bool_decide as Hdom; [|discriminate].
  destruct (mapping !! "database") as [[db| | |]|] eqn:H1; try discriminate.
  destruct (mapping !! "host") as [[h| | |]|] eqn:H2; try discriminate.
  destruct (mapping !! "password") as [[pw| | |]|] eqn:H3; try discriminate.
  destruct (mapping !! "port") as [[|pt| |]|] eqn:H4; try discriminate.
  destruct (mapping !! "sql") as [[| |a|]|] eqn:H5; try discriminate.
  destruct (mapping !! "tables") as [[| | |ts]|] eqn:H6; try discriminate.
  destruct (mapping !! "username") as [[u| | |]|] eqn:H7; try discriminate.
  intros [= <-]. apply map_eq. intros key.
  destruct (decide (key ∈ init_keywords)) as [Hin|Hout].
  - unfold init_keywords in Hin. cbn [list_to_set] in Hin.
    repeat (apply elem_of_union in Hin as [Hin|Hin];
            [apply elem_of_singleton in Hin as ->; by symmetry|]).
    by apply elem_of_empty in Hin.
  - rewrite as_yaml_lookup_other by done. symmetry.
    apply not_elem_of_dom. by rewrite Hdom.
Qed.

(** C9. Building a persistor from the mapping that [as_yaml] returns,
    which is the mapping of the node of [_yaml_repr], gives the persistor
    back: the database, the host, the password, the
    port, the user name, the asset and the tables are the same.  The
    mapping has exactly the seven keys of [__init__]; two persistors with
    the same mapping are the same; and a mapping from which [_yaml_init]
    builds a persistor is the mapping of that persistor. *)
Theorem yaml_round_trip (self : Persistor) :
  _yaml_init (snd (_yaml_repr self YAML)) = Ok self /\
  dom (as_yaml self) = init_keywords /\
  (forall other, as_yaml other = as_yaml self -> other = self) /\
  (forall mapping, _yaml_init mapping = Ok self -> mapping = as_yaml self).
Proof.
  split; [apply yaml_init_as_yaml|]. split; [apply as_yaml_dom|]. split.
  - intros other Heq.
    assert (H : _yaml_init (as_yaml other) = _yaml_init (as_yaml self))
      by by rewrite Heq.
    rewrite !yaml_init_as_yaml in H. by injection H.
  - intros mapping Hinit. symmetry. by apply yaml_init_inv.
Qed.

(** ** The theorems at sample inputs *)

(** [check_aggregates] at the scenario of the spec: [patients] passes,
    the probe of [scores] raises a driver error of the supplied set. *)
Lemma check_aggregates_witness :
  executed (events (fst (check scores_missing clinic [CDriver DBAPI.DatabaseError]
                           initial))) =
    ["select 1 as n from patients limit 1";
     "select 1 as n from scores limit 1"] /\
  snd (check scores_missing clinic [CDriver DBAPI.DatabaseError] initial) =
    Raise (RuntimeError ERRORS ["scores"]).
Proof.
  apply (check_aggregates scores_missing clinic [CDriver DBAPI.DatabaseError]
           initial).
  intros table e Hin Hprobe.
  apply elem_of_cons in Hin as [->|Hin].
  - vm_compute in Hprobe. discriminate.
  - apply elem_of_cons in Hin as [->|Hin].
    + vm_compute in Hprobe. injection Hprobe as <-. reflexivity.
    + by apply elem_of_nil in Hin.
Defined.

(** With a supplied set that does not cover the error of an ill-formed
    name, [check] stops at that name with the [ValueError] of [extant]. *)
Example check_stops_at_foreign_exception :
  snd (check empty_answer
         {| sql := sql clinic; tables := ["1patients"; "scores"] |}
         [CDriver DBAPI.DatabaseError] initial) =
    Raise (not_identifier "1patients") /\
  executed (events (fst (check empty_answer
         {| sql := sql clinic; tables := ["1patients"; "scores"] |}
         [CDriver DBAPI.DatabaseError] initial))) = [].
Proof. split; reflexivity. Qed.

(** C8, the claim as stated fails: a statement that yields no row, or two
    rows, passes the probe, and [check] returns normally. *)
Lemma existence_probe_other_shapes_pass :
  extant clinic "patients" = Ok "select 1 as n from patients limit 1" /\
  empty_answer "select 1 as n from patients limit 1" None =
    Ok {| description := ["n"]; rows := [] |} /\
  probe_result empty_answer clinic "patients" = Ok tt /\
  double_answer "select 1 as n from patients limit 1" None =
    Ok {| description := ["n"]; rows := [[AInt 1]; [AInt 1]] |} /\
  probe_result double_answer clinic "patients" = Ok tt /\
  snd (check empty_answer clinic [CBaseException] initial) = Ok tt.
Proof. repeat split; reflexivity. Qed.

(** [chunked_query] at 25 ids in chunks of 10, with a parameter beside
    the ids that the database needs for its answer. *)
Lemma chunked_query_witness :
  map length (chunks ids25 10) = [10; 10; 5] /\
  events (fst (df_from_query_by_ids scored "q" ids25
                 (Some {[ "score" := Scalar (AInt 7) ]}) 10 initial)) =
    map (fun c => EExecute "q"
                    (Some (bind_ids c {[ "score" := Scalar (AInt 7) ]})))
      (chunks ids25 10) /\
  exists df,
    snd (df_from_query_by_ids scored "q" ids25
           (Some {[ "score" := Scalar (AInt 7) ]}) 10 initial) = Ok df /\
    columns df = [Name "id"; Name "score"] /\
    data df = map (fun a => [a; AInt 7]) ids25.
Proof.
  assert (Hscored : forall c, c ∈ chunks ids25 10 ->
            scored "q" (Some (bind_ids c {[ "score" := Scalar (AInt 7) ]})) =
              Ok (scored_response (AInt 7) c) /\
            length (description (scored_response (AInt 7) c)) = 2 /\
            Forall (fun row => length row = 2)
              (rows (scored_response (AInt 7) c))).
  { intros c _. split; [|split; [reflexivity|]].
    - unfold scored.
      rewrite bind_ids_lookup_ids by by apply lookup_singleton_ne.
      rewrite bind_ids_lookup_other by done.
      by rewrite lookup_singleton_eq.
    - unfold scored_response. cbn [rows]. apply Forall_map.
      by apply Forall_true. }
  destruct (chunked_query scored "q" ids25 {[ "score" := Scalar (AInt 7) ]}
              10 (scored_response (AInt 7)) 2 initial)
    as (_ & _ & Hevents & _ & _ & _ & Hresult & Hsizes);
    [lia|discriminate|exact Hscored|].
  split; [exact (proj1 (Hsizes eq_refl eq_refl))|]. split.
  - exact Hevents.
  - destruct Hresult as (c_last & _ & Hrun); [discriminate|].
    eexists. split; [exact Hrun|]. split; reflexivity.
Defined.

(** [by_ids_no_rows] at three ids in chunks of two, no row returned. *)
Lemma by_ids_no_rows_witness :
  snd (df_from_query_by_ids empty_answer "q" [AInt 1; AInt 2; AInt 3] None 2
         initial) = Raise no_objects /\
  length (events (fst (df_from_query_by_ids empty_answer "q"
                         [AInt 1; AInt 2; AInt 3] None 2 initial))) = 2.
Proof.
  destruct (by_ids_no_rows empty_answer "q" [AInt 1; AInt 2; AInt 3] None 2
              initial) as (_ & Hevents & Hrun & _).
  - lia.
  - discriminate.
  - intros c _. eexists. split; reflexivity.
  - split; [exact Hrun|]. rewrite Hevents. reflexivity.
Defined.

Example extant_examples :
  extant clinic "public.patients_2" =
    Ok "select 1 as n from public.patients_2 limit 1" /\
  extant clinic "1patients" = Raise (not_identifier "1patients") /\
  extant clinic "patients; drop table scores" =
    Raise (not_identifier "patients; drop table scores") /\
  extant clinic "" = Raise (not_identifier "").
Proof. repeat split; reflexivity. Qed.

(** [$] also matches before a line feed that ends the name. *)
Example extant_trailing_line_feed :
  Re.re_match ALPHA_NUMERIC_DOT ("patients" +:+ line_feed) = true.
Proof. reflexivity. Qed.

Example chunks_examples :
  chunks [1; 2; 3; 4; 5] 2 = [[1; 2]; [3; 4]; [5]] /\
  chunks [1; 2; 3; 4] 2 = [[1; 2]; [3; 4]] /\
  chunks [1; 2] 5 = [[1; 2]].
Proof. repeat split; reflexivity. Qed.

(** ** At the edges of the claims *)

(** X2. An exception that a probe raises and that is not in the supplied
    set leaves [check] at once: the tables before it were probed, the
    tables after it are not, and no aggregated error is raised. *)
Theorem check_propagates (d : driver) (self : AbstractPersistor)
    (exceptions : list exn_class) (ts1 : list string) (t : string)
    (ts2 : list string) (e : exn) (s : state) :
  tables self = ts1 ++ t :: ts2 ->
  (forall table e', table ∈ ts1 -> probe_result d self table = Raise e' ->
                    isinstance e' exceptions = true) ->
  probe_result d self t = Raise e ->
  isinstance e exceptions = false ->
  snd (check d self exceptions s) = Raise e /\
  executed (events (fst (check d self exceptions s))) =
    executed (events s) ++ omap (statement_of self) (ts1 ++ [t]).
Proof.
  intros Htables Hcaught He Hout. unfold check.
  rewrite bind_run, log_add, bind_run, Htables.
  destruct (check_tables_propagates d self exceptions ts1 t ts2 []
              (add_events s [ELog Info ON []]) e Hcaught He Hout)
    as [Hres Hev].
  destruct (check_tables d self exceptions (ts1 ++ t :: ts2) []
              (add_events s [ELog Info ON []])) as [s1 r1].
  cbn [fst snd] in Hres, Hev. subst r1. cbn [fst snd]. split; [done|].
  rewrite Hev. unfold add_events. cbn [events].
  by rewrite executed_app, app_nil_r.
Qed.

(** An error of a class below a supplied class is caught and aggregated,
    as [except exceptions] does with a subclass; an error of a class that
    is not below a supplied class leaves [check]. *)
Example check_catches_driver_subclass :
  snd (check scores_unreachable clinic [CDriver DBAPI.DatabaseError] initial) =
    Raise (RuntimeError ERRORS ["scores"]) /\
  snd (check scores_unreachable clinic [CDriver DBAPI.InterfaceError] initial) =
    Raise (DriverError DBAPI.OperationalError "connection lost").
Proof. split; reflexivity. Qed.

(** [check_propagates] at an ill-formed name between two tables, with a
    supplied set that holds the driver's error only. *)
Lemma check_propagates_witness :
  snd (check empty_answer ward [CDriver DBAPI.DatabaseError] initial) =
    Raise (not_identifier "1scores") /\
  executed (events (fst (check empty_answer ward [CDriver DBAPI.DatabaseError]
                           initial))) =
    ["select 1 as n from patients limit 1"].
Proof.
  apply (check_propagates empty_answer ward [CDriver DBAPI.DatabaseError]
           ["patients"] "1scores" ["visits"] (not_identifier "1scores")
           initial).
  - reflexivity.
  - intros table e' Hin Hprobe.
    apply elem_of_cons in Hin as [->|Hin].
    + vm_compute in Hprobe. discriminate.
    + by apply elem_of_nil in Hin.
  - reflexivity.
  - reflexivity.
Defined.

(** X4. [df_from_query], for a statement that returns no row, gives the
    empty frame that carries the column names of the cursor. *)
Theorem df_from_query_no_rows (d : driver) (query : string)
    (parameters : option (gmap string value)) (r : response) (s : state) :
  d query (Some (or_empty parameters)) = Ok r ->
  rows r = [] ->
  snd (df_from_query d query parameters s) =
    Ok {| columns := map Name (description r); data := [] |}.
Proof.
  intros Hd Hrows. unfold df_from_query.
  rewrite bind_run. unfold execute. rewrite Hd.
  rewrite bind_run. unfold cursor_description. cbn [result_set].
  rewrite bind_run. unfold fetchall. cbn [result_set].
  by rewrite Hrows.
Qed.

(** [df_from_query_no_rows] at a database that returns no row. *)
Lemma df_from_query_no_rows_witness :
  snd (df_from_query empty_answer "select n from t" None initial) =
    Ok {| columns := [Name "n"]; data := [] |}.
Proof.
  apply (df_from_query_no_rows empty_answer "select n from t" None
           {| description := ["n"]; rows := [] |} initial); reflexivity.
Defined.

(** [commit_failure_rolls_back] at a connection whose [commit()]
    raises. *)
Lemma commit_failure_witness :
  invocations ECommit (fst (commit commit_fails quiet_block initial)) = 1 /\
  invocations ERollback (fst (commit commit_fails quiet_block initial)) = 1 /\
  snd (commit commit_fails quiet_block initial) =
    Raise (DriverError DBAPI.OperationalError "could not commit").
Proof.
  destruct (commit_failure_rolls_back commit_fails quiet_block initial
              (DriverError DBAPI.OperationalError "could not commit")
              eq_refl eq_refl eq_refl eq_refl eq_refl) as (Hc & Hr & Hraise).
  exact (conj Hc (conj Hr (Hraise eq_refl eq_refl))).
Defined.

(** ** More on the transaction scopes *)

Lemma statements_only_execute ev l :
  (forall q ps, ev <> EExecute q ps) ->
  occurrences ev (statement_events l) = 0.
Proof.
  intros Hev. induction l as [|qp l IH]; [reflexivity|].
  cbn [statement_events map]. rewrite occurrences_cons.
  fold (statement_events l). rewrite IH.
  rewrite bool_decide_eq_false_2; [done|]. intros Heq. by eapply Hev.
Qed.

Ltac trace_normal :=
  unfold add_events; cbn [events fst snd];
  rewrite <- ?app_assoc; cbn [app].

(** X6. In both scopes, once the connection gave a cursor: the cursor is
    released whatever the block does and however the later calls end, the
    statements of the block are the only use made of it, and what follows
    its release, [commit()] or [rollback()] included, makes no use of it;
    nothing before the release ends the transaction. *)
Theorem cursor_released_first (con : connection) (b : caller_block)
    (s : state) :
  on_connect con = None -> on_cursor con = None ->
  let opened :=
    [EConnect; ELog Info OPEN []; ECursor] ++
    statement_events (block_statements b) in
  no_transaction_end opened = true /\
  (exists rest,
     events (fst (commit con b s)) =
       events s ++ opened ++ ECursorClose :: rest /\
     no_cursor_use rest = true) /\
  (exists rest,
     events (fst (rollback con b s)) =
       events s ++ opened ++ ECursorClose :: rest /\
     no_cursor_use rest = true).
Proof.
  intros Hconnect Hcursor opened. split.
  { subst opened. cbn. induction (block_statements b) as [|qp l IH]; done. }
  scope_cases con b. subst opened. cbn [block_statements].
  split.
  - repeat match goal with o : option exn |- _ => destruct o end;
      repeat scope_step; trace_normal; eexists; (split; [reflexivity|]);
      reflexivity.
  - repeat match goal with o : option exn |- _ => destruct o end;
      repeat scope_step; trace_normal; eexists; (split; [reflexivity|]);
      reflexivity.
Qed.

(** X7. When [con.cursor()] itself raises, the block is not run; the
    commit scope does not commit and rolls back once, the rollback scope
    rolls back once, and the error of [con.cursor()] is what either scope
    raises once [rollback()] and the close return. *)
Theorem cursor_failure (con : connection) (b : caller_block) (s : state)
    (e : exn) :
  on_connect con = None -> on_cursor con = Some e ->
  (executed (events (fst (commit con b s))) = executed (events s) /\
   invocations ECommit (fst (commit con b s)) = invocations ECommit s /\
   invocations ERollback (fst (commit con b s)) =
     invocations ERollback s + 1 /\
   (on_rollback con = None -> on_close con = None ->
    snd (commit con b s) = Raise e)) /\
  (executed (events (fst (rollback con b s))) = executed (events s) /\
   invocations ECommit (fst (rollback con b s)) = invocations ECommit s /\
   invocations ERollback (fst (rollback con b s)) =
     invocations ERollback s + 1 /\
   (on_rollback con = None -> on_close con = None ->
    snd (rollback con b s) = Raise e)).
Proof.
  intros Hconnect Hcursor. scope_cases con b.
  split; repeat match goal with o : option exn |- _ => destruct o end;
    repeat scope_step;
    (split; [unfold add_events; cbn [events]; rewrite executed_app; cbn;
             by rewrite app_nil_r|]);
    repeat split; intros; try count_events; congruence.
Qed.

Ltac count_all :=
  rewrite ?invocations_add, ?occurrences_app;
  repeat match goal with
         | |- context [occurrences ?ev (statement_events ?l)] =>
             rewrite (statements_only_execute ev l) by discriminate
         | |- context [occurrences ?ev (?x :: ?l)] =>
             let v := eval vm_compute in (occurrences ev (x :: l)) in
             change (occurrences ev (x :: l)) with v
         end;
  try lia.

(** X8. When [rollback()] itself raises, its error is what the scope
    raises (once the close returns): the rollback scope raises it even
    after a block that completed normally; the commit scope either ends
    normally without a rollback or raises it in the place of the
    exception that made it roll back; the rollback is then not logged. *)
Theorem rollback_failure (con : connection) (b : caller_block) (s : state)
    (e2 : exn) :
  on_connect con = None -> on_rollback con = Some e2 -> on_close con = None ->
  (snd (rollback con b s) = Raise e2 /\
   invocations (ELog Info ROLLBACK []) (fst (rollback con b s)) =
     invocations (ELog Info ROLLBACK []) s) /\
  ((snd (commit con b s) = Ok tt /\
    invocations ERollback (fst (commit con b s)) = invocations ERollback s)
   \/
   (snd (commit con b s) = Raise e2 /\
    invocations ERollback (fst (commit con b s)) =
      invocations ERollback s + 1 /\
    invocations (ELog Info ROLLBACK []) (fst (commit con b s)) =
      invocations (ELog Info ROLLBACK []) s)).
Proof.
  intros Hconnect Hrollback Hclose. scope_cases con b.
  split.
  - repeat match goal with o : option exn |- _ => destruct o end;
      repeat scope_step; (split; [reflexivity|count_all]).
  - repeat match goal with o : option exn |- _ => destruct o end;
      repeat scope_step;
      first [ left; split; [reflexivity|count_all]
            | right; split; [reflexivity|split; count_all] ].
Qed.

(** X9. What the scopes log about the transaction.  The commit scope logs
    [COMMIT] once exactly when [commit()] was called and returned, and
    then neither calls nor logs a rollback; otherwise it calls
    [rollback()] once and logs [ROLLBACK] once exactly when that call
    returned; it never logs both.  The rollback scope never logs
    [COMMIT]. *)
Theorem scope_logs (con : connection) (b : caller_block) (s : state) :
  on_connect con = None ->
  let logged message s' :=
    invocations (ELog Info message []) s' -
    invocations (ELog Info message []) s in
  let called ev s' := invocations ev s' - invocations ev s in
  let after_commit := fst (commit con b s) in
  let after_rollback := fst (rollback con b s) in
  ((called ECommit after_commit = 1 /\ on_commit con = None /\
    logged COMMIT after_commit = 1 /\ logged ROLLBACK after_commit = 0 /\
    called ERollback after_commit = 0)
   \/
   (called ERollback after_commit = 1 /\
    logged COMMIT after_commit = 0 /\
    logged ROLLBACK after_commit =
      match on_rollback con with None => 1 | Some _ => 0 end)) /\
  (logged COMMIT after_rollback = 0 /\
   logged ROLLBACK after_rollback =
     match on_rollback con with None => 1 | Some _ => 0 end).
Proof.
  intros Hconnect logged called after_commit after_rollback.
  subst logged called after_commit after_rollback. cbv beta.
  scope_cases con b. split.
  - repeat match goal with o : option exn |- _ => destruct o end;
      repeat scope_step;
      first [ left; repeat split; solve [reflexivity | count_all]
            | right; repeat split; solve [count_all] ].
  - repeat match goal with o : option exn |- _ => destruct o end;
      repeat scope_step; split; solve [count_all].
Qed.

(** ** More on the query executors *)

Lemma by_ids_loop_app d query parameters cs1 cs2 dfs s :
  by_ids_loop d query parameters (cs1 ++ cs2) dfs s =
  match by_ids_loop d query parameters cs1 dfs s with
  | (s', Ok dfs') => by_ids_loop d query parameters cs2 dfs' s'
  | (s', Raise e) => (s', Raise e)
  end.
Proof.
  revert dfs s. induction cs1 as [|c cs1 IH]; intros dfs s; [done|].
  cbn [app by_ids_loop]. rewrite !bind_run.
  destruct (execute d query (Some (bind_ids c parameters)) s) as [s1 [[]|e]];
    [|done].
  rewrite !bind_run. destruct (fetchall s1) as [s2 [rs|e]]; [|done].
  apply IH.
Qed.

Lemma chunks_single {A} (l : list A) (n : nat) :
  l <> [] -> length l <= n -> chunks l n = [l].
Proof.
  intros Hne Hlen. destruct l as [|x l]; [done|].
  unfold chunks. cbn [length chunks_fuel].
  rewrite take_ge, drop_ge by done. by destruct (length l).
Qed.

(** X10. When the execution for a chunk raises, [df_from_query_by_ids]
    stops there with that exception: the chunks before it were executed,
    the chunks after it are not, and the frames collected so far are
    lost. *)
Theorem by_ids_execution_raises (d : driver) (query : string)
    (ids : list atom) (parameters : option (gmap string value)) (size : nat)
    (resp : list atom -> response) (cs1 : list (list atom)) (c : list atom)
    (cs2 : list (list atom)) (e : exn) (s : state) :
  chunks ids size = cs1 ++ c :: cs2 ->
  (forall c', c' ∈ cs1 ->
     d query (Some (bind_ids c' (or_empty parameters))) = Ok (resp c')) ->
  d query (Some (bind_ids c (or_empty parameters))) = Raise e ->
  snd (df_from_query_by_ids d query ids parameters size s) = Raise e /\
  events (fst (df_from_query_by_ids d query ids parameters size s)) =
    events s ++
    map (chunk_execution query (or_empty parameters)) (cs1 ++ [c]).
Proof.
  intros Hchunks Hbefore Hraise. unfold df_from_query_by_ids. cbn zeta.
  rewrite Hchunks, bind_run, by_ids_loop_app.
  rewrite (by_ids_loop_run _ _ _ resp) by done.
  cbn [by_ids_loop]. rewrite bind_run. unfold execute. rewrite Hraise.
  cbn [fst snd events]. split; [done|].
  by rewrite map_app, app_assoc.
Qed.

(** X11. An [ids] entry in [parameters] takes the place of every chunk:
    the dict that is sent is [parameters] itself, so the query is executed
    once per chunk with the same parameters, and the chunks never reach
    the database. *)
Theorem by_ids_shadowed (d : driver) (query : string) (ids : list atom)
    (parameters : gmap string value) (size : nat) (v : value) (r : response)
    (s : state) :
  0 < size ->
  parameters !! "ids" = Some v ->
  d query (Some parameters) = Ok r ->
  (forall chunk, bind_ids chunk parameters = parameters) /\
  events (fst (df_from_query_by_ids d query ids (Some parameters) size s)) =
    events s ++
    replicate (length (chunks ids size)) (EExecute query (Some parameters)).
Proof.
  intros Hsize Hids Hd.
  assert (Hbind : forall chunk, bind_ids chunk parameters = parameters).
  { intros chunk. unfold bind_ids. apply map_eq. intros key.
    destruct (parameters !! key) as [w|] eqn:Hw.
    - by apply lookup_union_Some_l.
    - rewrite lookup_union_r by done. apply lookup_singleton_ne.
      intros <-. congruence. }
  split; [exact Hbind|].
  unfold df_from_query_by_ids. cbn zeta. cbn [or_empty].
  rewrite bind_run, (by_ids_loop_run _ _ _ (fun _ => r))
    by (intros c _; by rewrite Hbind).
  assert (Hmap : map (chunk_execution query parameters) (chunks ids size) =
            replicate (length (chunks ids size))
              (EExecute query (Some parameters))).
  { induction (chunks ids size) as [|c cs IH]; [done|].
    cbn [map length replicate]. rewrite IH. unfold chunk_execution.
    by rewrite Hbind. }
  rewrite Hmap. destruct (last (chunks ids size)); [|done].
  rewrite bind_run. unfold cursor_description. cbn [result_set].
  rewrite bind_run. unfold lift.
  destruct (concat _) as [df|e']; [|done].
  by destruct (set_columns _ _).
Qed.

(** X12. With ids that fit in one chunk and an execution that returns at
    least one row, [df_from_query_by_ids] is [df_from_query] with the ids
    bound beside the parameters: the same frame or error, and the same
    state. *)
Theorem by_ids_single_chunk (d : driver) (query : string) (ids : list atom)
    (parameters : option (gmap string value)) (size : nat) (r : response)
    (s : state) :
  ids <> [] -> length ids <= size ->
  d query (Some (bind_ids ids (or_empty parameters))) = Ok r ->
  rows r <> [] ->
  df_from_query_by_ids d query ids parameters size s =
  df_from_query d query (Some (bind_ids ids (or_empty parameters))) s.
Proof.
  intros Hids Hsize Hd Hrows.
  unfold df_from_query_by_ids, df_from_query. cbn zeta. cbn [or_empty].
  rewrite chunks_single by done. cbn [by_ids_loop last].
  rewrite !bind_run. unfold execute. rewrite Hd.
  destruct r as [names [|row rs]]; [done|].
  rewrite !bind_run. unfold fetchall, cursor_description.
  cbn [result_set events description rows].
  unfold ret. rewrite !bind_run. cbn [result_set events description rows].
  unfold lift, concat, set_columns. cbn [app columns data flat_map map max_list].
  rewrite app_nil_r.
  assert (Hwidth : forall w, length (positions (id w `max` 0)) = w).
  { intros w. unfold positions. rewrite !length_map, !length_seq.
    unfold id. lia. }
  rewrite bind_run. cbn [columns data]. by rewrite Hwidth.
Qed.

(** X13. [df_from_query] executes the statement exactly once, with an
    empty dict when [parameters] is [None]; an error of the execution is
    raised as it is; and when rows come back, each with one value per
    column descriptor, the frame holds those rows under the names of the
    descriptors. *)
Theorem df_from_query_rows (d : driver) (query : string)
    (parameters : option (gmap string value)) (s : state) :
  let run := df_from_query d query parameters s in
  events (fst run) = events s ++ [EExecute query (Some (or_empty parameters))] /\
  (parameters = None ->
   events (fst run) = events s ++ [EExecute query (Some ∅)]) /\
  (forall e, d query (Some (or_empty parameters)) = Raise e ->
             snd run = Raise e) /\
  (forall r, d query (Some (or_empty parameters)) = Ok r ->
     rows r <> [] ->
     Forall (fun row => length row = length (description r)) (rows r) ->
     snd run = Ok {| columns := map Name (description r); data := rows r |}).
Proof.
  intros run.
  assert (Hevents : events (fst run) =
            events s ++ [EExecute query (Some (or_empty parameters))]).
  { subst run. unfold df_from_query. rewrite bind_run. unfold execute.
    destruct (d query (Some (or_empty parameters))) as [r|e]; [|done].
    rewrite bind_run. unfold cursor_description. cbn [result_set].
    rewrite bind_run. unfold fetchall. cbn [result_set events].
    by destruct (rows r). }
  split; [exact Hevents|]. split.
  { intros Hnone. rewrite Hevents, Hnone. reflexivity. }
  subst run. unfold df_from_query. rewrite bind_run. unfold execute. split.
  - intros e Hd. by rewrite Hd.
  - intros r Hd Hrows Hwidth. rewrite Hd.
    rewrite bind_run. unfold cursor_description. cbn [result_set].
    rewrite bind_run. unfold fetchall. cbn [result_set events].
    destruct (rows r) as [|row rs] eqn:Hr; [done|].
    unfold lift, set_columns. cbn [snd].
    rewrite bool_decide_eq_true_2; [done|].
    by apply frame_width.
Qed.

(** ** Replacement fields *)

Lemma append_assoc (a b c : string) : (a +:+ b) +:+ c = a +:+ (b +:+ c).
Proof. induction a as [|x a IH]; [done|]. by rewrite !append_cons, IH. Qed.

Lemma field_class_no_brace c :
  Re.class_mem field_class c = true -> c <> "{"%char /\ c <> "}"%char.
Proof.
  intros Hc. split; intros ->; vm_compute in Hc; discriminate.
Qed.

Lemma field_opens kwargs c s :
  c <> "{"%char ->
  Fmt.go kwargs None (String "{" (String c s)) =
  Fmt.go kwargs (Some EmptyString) (String c s).
Proof.
  intros Hc. destruct c as [[] [] [] [] [] [] [] []]; try reflexivity.
  by destruct Hc.
Qed.

Lemma field_scan kwargs acc name rest :
  all_in field_class name = true ->
  Fmt.go kwargs (Some acc) (name +:+ "}" +:+ rest) =
  Fmt.app_ok (Fmt.lookup_field kwargs (acc +:+ name))
    (Fmt.go kwargs None rest).
Proof.
  revert acc. induction name as [|c name IH]; intros acc Hname.
  - rewrite append_nil, append_nil_r. reflexivity.
  - cbn [all_in] in Hname. apply andb_true_iff in Hname as [Hc Hname].
    apply field_class_no_brace in Hc as [Hopen Hclose].
    rewrite append_cons. cbn [Fmt.go].
    rewrite (bool_decide_eq_false_2 _ Hclose), (bool_decide_eq_false_2 _ Hopen).
    rewrite IH by done. by rewrite append_assoc.
Qed.

(** A field of the template is looked up among the keyword arguments. *)
Lemma format_field kwargs name rest :
  keyword_field name = true ->
  Fmt.go kwargs None ("{" +:+ name +:+ "}" +:+ rest) =
  Fmt.app_ok
    match kwargs !! name with
    | Some v => Ok v
    | None => Raise (KeyError name)
    end
    (Fmt.go kwargs None rest).
Proof.
  intros Hfield. unfold keyword_field in Hfield.
  apply andb_true_iff in Hfield as [Hdigits Hname].
  apply negb_true_iff in Hdigits.
  destruct name as [|c name]; [done|].
  assert (Hc : c <> "{"%char).
  { cbn [all_in] in Hname. apply andb_true_iff in Hname as [Hc _].
    by apply field_class_no_brace in Hc as [Hc _]. }
  change ("{" +:+ String c name +:+ "}" +:+ rest)
    with (String "{" (String c (name +:+ "}" +:+ rest))).
  rewrite field_opens by done.
  change (String c (name +:+ "}" +:+ rest))
    with (String c name +:+ "}" +:+ rest).
  rewrite field_scan by done. rewrite append_nil. unfold Fmt.lookup_field.
  rewrite bool_decide_eq_false_2 by done. by rewrite Hdigits.
Qed.

Lemma format_missing_field kwargs pre name post :
  brace_free pre = true -> keyword_field name = true ->
  kwargs !! name = None ->
  Fmt.format (pre +:+ "{" +:+ name +:+ "}" +:+ post) kwargs =
  Raise (KeyError name).
Proof.
  intros Hpre Hfield Hnone. unfold Fmt.format.
  by rewrite format_text, format_field, Hnone.
Qed.

(** ** The keyed query, for any [mogrify] *)

Lemma union_all_by_class dia keys :
  union_all dia keys = ByClass.union_all (mogrify dia) keys.
Proof. reflexivity. Qed.

Lemma union_all_items_by_class dia keys :
  union_all_items dia keys = ByClass.union_all_items (mogrify dia) keys.
Proof.
  induction keys as [|[key sequence] keys IH]; [done|].
  cbn [union_all_items ByClass.union_all_items].
  by rewrite IH, union_all_by_class.
Qed.

(** The keyed query of a dialect is the keyed query of the class, with
    the [mogrify] of the dialect. *)
Lemma by_keys_by_class dia d query keys parameters s :
  df_from_query_by_keys dia d query keys parameters s =
  ByClass.df_from_query_by_keys (mogrify dia) d query keys parameters s.
Proof.
  unfold df_from_query_by_keys, ByClass.df_from_query_by_keys. cbn zeta.
  by rewrite union_all_items_by_class.
Qed.

Lemma union_all_items_names render_query keys items :
  ByClass.union_all_items render_query keys = Ok items ->
  items.*1 = keys.*1.
Proof.
  revert items. induction keys as [|[key sequence] keys IH]; intros items.
  - by intros [= <-].
  - cbn [ByClass.union_all_items].
    destruct (ByClass.union_all render_query sequence) as [text|e]; [|done].
    destruct (ByClass.union_all_items render_query keys) as [rest|e]; [|done].
    intros [= <-]. cbn. f_equal. by apply IH.
Qed.

(** X14. [df_from_query_by_keys], once the statement is rendered: the
    rendered text is written to the file and then executed as it is,
    without parameters; an error of the execution is raised as it is; a
    result without rows under at least one column raises the length
    mismatch of the column assignment (where [df_from_query] returns an
    empty frame); rows with one value per column descriptor come back as
    the frame under the names of the descriptors. *)
Theorem by_keys_result (render_query : renderer) (d : driver)
    (query : string) (keys : option (list (string * list atom)))
    (parameters : option (gmap string value))
    (items : list (string * string)) (formatted rendered : string)
    (s : state) :
  ByClass.union_all_items render_query (group_items keys) = Ok items ->
  Fmt.format query (list_to_map items) = Ok formatted ->
  render_query formatted (Named (or_empty parameters)) = Ok rendered ->
  let run :=
    ByClass.df_from_query_by_keys render_query d query keys parameters s in
  events (fst run) = events s ++ [EWrite rendered; EExecute rendered None] /\
  (forall e, d rendered None = Raise e -> snd run = Raise e) /\
  (forall r, d rendered None = Ok r ->
     rows r = [] -> description r <> [] ->
     snd run = Raise length_mismatch) /\
  (forall r, d rendered None = Ok r ->
     rows r <> [] ->
     Forall (fun row => length row = length (description r)) (rows r) ->
     snd run = Ok {| columns := map Name (description r); data := rows r |}).
Proof.
  intros Hitems Hformat Hrender run.
  assert (Hrun : run =
    match d rendered None with
    | Ok r =>
        ({| events := events s ++ [EWrite rendered; EExecute rendered None];
            result_set := Some {| description := description r; rows := [] |} |},
         set_columns (frame_of_rows (rows r)) (description r))
    | Raise e =>
        ({| events := events s ++ [EWrite rendered; EExecute rendered None];
            result_set := None |}, Raise e)
    end).
  { subst run. unfold ByClass.df_from_query_by_keys. cbn zeta.
    fold (group_items keys).
    rewrite bind_run. unfold lift at 1. rewrite Hitems.
    rewrite bind_run. unfold lift at 1. rewrite Hformat.
    rewrite bind_run. unfold lift at 1. rewrite Hrender.
    rewrite bind_run, emit_add, bind_run. unfold execute.
    unfold add_events. cbn [events]. rewrite <- app_assoc. cbn [app].
    destruct (d rendered None) as [r|e]; [|done].
    rewrite bind_run. unfold fetchall. cbn [result_set events].
    rewrite bind_run. unfold cursor_description. cbn [result_set].
    reflexivity. }
  rewrite Hrun. clear Hrun. split; [by destruct (d rendered None)|].
  split; [by intros e ->|]. split.
  - intros r -> Hrows Hdesc. rewrite Hrows. cbn [snd].
    unfold set_columns. rewrite bool_decide_eq_false_2; [done|].
    cbn. by destruct (description r).
  - intros r -> Hrows Hwidth. cbn [snd]. unfold set_columns.
    rewrite bool_decide_eq_true_2; [done|].
    apply frame_width; [|done]. by destruct (rows r).
Qed.

(** X15. With the [mogrify] of [AbstractPersistor] itself, the keyed
    query never reaches the file or the database: the state is left as it
    was, and the call raises [NotImplementedError], from the first key
    group or, without key groups, from the rendering of the formatted
    query (an error of the formatting comes first). *)
Theorem by_keys_abstract (d : driver) (query : string)
    (keys : option (list (string * list atom)))
    (parameters : option (gmap string value)) (s : state) :
  let run :=
    ByClass.df_from_query_by_keys ByClass.mogrify d query keys parameters s in
  fst run = s /\
  snd run =
    match group_items keys with
    | _ :: _ => Raise NotImplementedError
    | [] =>
        match Fmt.format query ∅ with
        | Ok _ => Raise NotImplementedError
        | Raise e => Raise e
        end
    end.
Proof.
  intros run. subst run. unfold ByClass.df_from_query_by_keys. cbn zeta.
  fold (group_items keys).
  destruct (group_items keys) as [|[key sequence] groups]; [|done].
  cbn [ByClass.union_all_items]. unfold bind, lift.
  change (list_to_map []) with (∅ : gmap string string).
  by destruct (Fmt.format query ∅).
Qed.

(** X16. A replacement field of the query that names no key group makes
    the keyed query raise [KeyError] with that name, before anything is
    rendered, written or executed. *)
Theorem by_keys_missing_group (render_query : renderer) (d : driver)
    (query : string) (keys : option (list (string * list atom)))
    (parameters : option (gmap string value))
    (items : list (string * string)) (pre name post : string) (s : state) :
  ByClass.union_all_items render_query (group_items keys) = Ok items ->
  query = pre +:+ "{" +:+ name +:+ "}" +:+ post ->
  brace_free pre = true -> keyword_field name = true ->
  name ∉ (group_items keys).*1 ->
  ByClass.df_from_query_by_keys render_query d query keys parameters s =
    (s, Raise (KeyError name)).
Proof.
  intros Hitems -> Hpre Hfield Hname.
  unfold ByClass.df_from_query_by_keys. cbn zeta.
  fold (group_items keys).
  rewrite bind_run. unfold lift at 1. rewrite Hitems.
  rewrite bind_run. unfold lift at 1.
  rewrite format_missing_field; [done|done|done|].
  apply not_elem_of_list_to_map.
  by rewrite (union_all_items_names _ _ _ Hitems).
Qed.

(** X17. A replacement field of the [extant] template other than
    [{table}] makes [extant] raise [KeyError] with the name of the field,
    for every table name that is an identifier. *)
Theorem extant_other_field (self : AbstractPersistor)
    (table pre name post : string) :
  Re.re_match ALPHA_NUMERIC_DOT table = true ->
  extant_template (sql self) = pre +:+ "{" +:+ name +:+ "}" +:+ post ->
  brace_free pre = true -> keyword_field name = true ->
  name <> "table" ->
  extant self table = Raise (KeyError name).
Proof.
  intros Hmatch Htemplate Hpre Hfield Hname. unfold extant.
  rewrite Hmatch, Htemplate. cbn [negb].
  apply format_missing_field; [done|done|].
  by apply lookup_singleton_ne.
Qed.

(** ** What [check] logs *)

Lemma warned_app l1 l2 : warned (l1 ++ l2) = warned l1 ++ warned l2.
Proof. apply flat_map_app. Qed.

Lemma probe_events_quiet self table :
  warned (probe_events self table) = [] /\
  occurrences (ELog Info END []) (probe_events self table) = 0.
Proof.
  unfold probe_events. by destruct (extant self table).
Qed.

Lemma check_tables_logs d self exceptions ts errors s :
  (forall table e, table ∈ ts -> probe_result d self table = Raise e ->
                   isinstance e exceptions = true) ->
  exists evs,
    events (fst (check_tables d self exceptions ts errors s)) =
      events s ++ evs /\
    warned evs = filter (fun t => probe_result d self t <> Ok tt) ts /\
    occurrences (ELog Info END []) evs = 0.
Proof.
  revert errors s. induction ts as [|t ts IH]; intros errors s Hcaught.
  - exists []. by rewrite app_nil_r.
  - cbn [check_tables]. rewrite bind_run.
    destruct (check_table_step d self exceptions t errors s) as [Hev Hres].
    cbn zeta in Hev, Hres.
    match goal with
    | |- context [match ?m s with _ => _ end] => destruct (m s) as [s1 r1]
    end.
    cbn [fst snd] in Hev, Hres.
    assert (Hrest : forall table e, table ∈ ts ->
              probe_result d self table = Raise e ->
              isinstance e exceptions = true).
    { intros table e Hin. apply Hcaught. by right. }
    destruct (probe_events_quiet self t) as [Hquiet Hend].
    rewrite filter_cons.
    destruct (probe_result d self t) as [[]|e] eqn:Hprobe.
    + subst r1. cbv beta iota.
      destruct (IH errors s1 Hrest) as (evs & IHev & IHwarned & IHend).
      exists (probe_events self t ++ evs).
      rewrite IHev, Hev, app_nil_r, <- app_assoc. split; [done|].
      rewrite warned_app, occurrences_app, Hquiet, Hend, IHwarned, IHend.
      by rewrite decide_False by (intros H; by apply H).
    + rewrite (Hcaught t e) in Hev, Hres by (done || by left).
      subst r1. cbv beta iota.
      destruct (IH (errors ++ [t]) s1 Hrest) as (evs & IHev & IHwarned & IHend).
      exists (probe_events self t ++ [ELog Warning ERROR [t]] ++ evs).
      rewrite IHev, Hev, <- !app_assoc. split; [done|].
      rewrite !warned_app, !occurrences_app, Hquiet, Hend, IHwarned, IHend.
      by rewrite decide_True by done.
Qed.

(** X18. What [check] logs, when every exception that a probe raises is
    in the supplied set: [ON] first, then one warning for each table
    whose probe raised, in the order of the tables, and no other warning;
    [END] is logged once when no probe raised, and not at all before the
    aggregated error. *)
Theorem check_logs (d : driver) (self : AbstractPersistor)
    (exceptions : list exn_class) (s : state) :
  (forall table e, table ∈ tables self ->
                   probe_result d self table = Raise e ->
                   isinstance e exceptions = true) ->
  let failed := filter (fun t => probe_result d self t <> Ok tt) (tables self) in
  exists evs,
    events (fst (check d self exceptions s)) =
      events s ++ ELog Info ON [] :: evs /\
    warned evs = failed /\
    occurrences (ELog Info END []) evs =
      match failed with
      | [] => 1
      | _ :: _ => 0
      end.
Proof.
  intros Hcaught failed. unfold check. rewrite bind_run, log_add.
  rewrite bind_run.
  destruct (check_tables_logs d self exceptions (tables self) []
              (add_events s [ELog Info ON []]) Hcaught)
    as (evs & Hev & Hwarned & Hend).
  destruct (check_tables_run d self exceptions (tables self) []
              (add_events s [ELog Info ON []]) Hcaught) as [_ Hres].
  destruct (check_tables d self exceptions (tables self) []
              (add_events s [ELog Info ON []])) as [s1 r1].
  cbn [fst snd] in Hev, Hres. subst r1. cbn [app]. fold failed.
  fold failed in Hwarned.
  unfold add_events in Hev. cbn [events] in Hev.
  rewrite <- app_assoc in Hev. cbn [app] in Hev.
  destruct failed as [|t failed'].
  - rewrite log_add. cbn [fst]. exists (evs ++ [ELog Info END []]).
    unfold add_events. cbn [events]. rewrite Hev, <- app_assoc. cbn [app].
    split; [done|]. rewrite warned_app, occurrences_app, Hwarned, Hend.
    split; [done|]. reflexivity.
  - unfold raise. cbn [fst]. exists evs. by rewrite Hev.
Qed.

(** ** The YAML mapping of [Interval] *)

Lemma interval_init_as_yaml (self : Interval.Interval) :
  Interval._yaml_init (Interval.as_yaml self) = Ok self.
Proof. by destruct self. Qed.

Lemma interval_init_inv (mapping : gmap string scalar)
    (self : Interval.Interval) :
  Interval._yaml_init mapping = Ok self ->
  mapping !! "on" = Some (Interval.on self) /\
  Interval.end_ self = default SNone (mapping !! "end") /\
  forall key, key <> "on" -> key <> "end" -> mapping !! key = None.
Proof.
  unfold Interval._yaml_init, Interval.__init__.
  case_bool_decide as Hdom; [|discriminate].
  destruct (mapping !! "on") as [start|] eqn:Hon; [|discriminate].
  intros [= <-]. cbn [Interval.on Interval.end_].
  split; [done|]. split; [by destruct (mapping !! "end")|].
  intros key Hkey1 Hkey2. apply not_elem_of_dom. intros Hin.
  apply Hdom in Hin. unfold Interval.init_keywords in Hin.
  cbn [list_to_set] in Hin.
  repeat (apply elem_of_union in Hin as [Hin|Hin];
          [by apply elem_of_singleton in Hin|]).
  by apply elem_of_empty in Hin.
Qed.

(** X19. The YAML mapping of [Interval]: building an interval from the
    mapping of [as_yaml], which is the mapping of the node of
    [_yaml_repr] under the tag of the class, gives the interval back; the
    mappings from which [_yaml_init] builds a given interval are its
    [as_yaml] mapping and, when its end is [None], the mapping with [on]
    alone; and [_yaml_init] builds an interval exactly from the mappings
    that have [on] and no key besides [on] and [end], and raises
    [TypeError] for the others. *)
Theorem interval_yaml_round_trip :
  (forall self,
     Interval._yaml_repr self = (Interval.YAML, Interval.as_yaml self) /\
     Interval._yaml_init (snd (Interval._yaml_repr self)) = Ok self) /\
  (forall mapping self,
     Interval._yaml_init mapping = Ok self <->
     mapping = Interval.as_yaml self \/
     Interval.end_ self = SNone /\ mapping = {[ "on" := Interval.on self ]}) /\
  (forall mapping,
     if bool_decide ("on" ∈ dom mapping /\
                     dom mapping ⊆ Interval.init_keywords)
     then exists self, Interval._yaml_init mapping = Ok self
     else exists message,
            Interval._yaml_init mapping = Raise (TypeError message)).
Proof.
  split; [|split].
  - intros self. split; [reflexivity|apply interval_init_as_yaml].
  - intros mapping self. split.
    + intros Hinit.
      destruct (interval_init_inv mapping self Hinit) as (Hon & Hend & Hrest).
      destruct (mapping !! "end") as [stop|] eqn:Hstop; cbn in Hend.
      * left. apply map_eq. intros key. unfold Interval.as_yaml.
        cbn [list_to_map foldr curry fst snd]. rewrite Hend.
        destruct (decide (key = "end")) as [->|Hkey1].
        { by rewrite lookup_insert_eq. }
        rewrite lookup_insert_ne by done.
        destruct (decide (key = "on")) as [->|Hkey2].
        { by rewrite lookup_insert_eq. }
        rewrite lookup_insert_ne by done. by rewrite Hrest.
      * right. split; [done|]. apply map_eq. intros key.
        destruct (decide (key = "on")) as [->|Hkey2].
        { by rewrite lookup_singleton_eq. }
        rewrite lookup_singleton_ne by done.
        destruct (decide (key = "end")) as [->|Hkey1]; [done|].
        by apply Hrest.
    + intros [->|[Hend ->]]; [apply interval_init_as_yaml|].
      destruct self as [start stop]. cbn in Hend. subst stop. reflexivity.
  - intros mapping. unfold Interval._yaml_init, Interval.__init__.
    case_bool_decide as Hok.
    + destruct Hok as [Hon Hdom]. rewrite bool_decide_eq_true_2 by done.
      apply elem_of_dom in Hon as [start Hon]. rewrite Hon. by eexists.
    + case_bool_decide as Hdom; [|by eexists].
      destruct (mapping !! "on") as [start|] eqn:Hon; [|by eexists].
      destruct Hok. split; [|done]. apply elem_of_dom. by eexists.
Qed.

(** ** The further theorems at sample inputs *)

(** [cursor_released_first] at a block that is interrupted. *)
Lemma cursor_released_first_witness :
  (exists rest,
     events (fst (commit reliable interrupted_block initial)) =
       [EConnect; ELog Info OPEN []; ECursor; EExecute "select 1" None] ++
       ECursorClose :: rest /\
     no_cursor_use rest = true) /\
  (exists rest,
     events (fst (rollback reliable interrupted_block initial)) =
       [EConnect; ELog Info OPEN []; ECursor; EExecute "select 1" None] ++
       ECursorClose :: rest /\
     no_cursor_use rest = true).
Proof.
  exact (proj2 (cursor_released_first reliable interrupted_block initial
                  eq_refl eq_refl)).
Defined.

(** [cursor_failure] at a connection that gives no cursor. *)
Lemma cursor_failure_witness :
  executed (events (fst (commit cursor_fails quiet_block initial))) = [] /\
  invocations ERollback (fst (commit cursor_fails quiet_block initial)) = 1 /\
  snd (commit cursor_fails quiet_block initial) =
    Raise (DriverError DBAPI.OperationalError "no cursor") /\
  snd (rollback cursor_fails quiet_block initial) =
    Raise (DriverError DBAPI.OperationalError "no cursor").
Proof.
  destruct (cursor_failure cursor_fails quiet_block initial
              (DriverError DBAPI.OperationalError "no cursor") eq_refl eq_refl)
    as ((He & _ & Hr & Hc) & (_ & _ & _ & Hb)).
  exact (conj He (conj Hr (conj (Hc eq_refl eq_refl) (Hb eq_refl eq_refl)))).
Defined.

(** [rollback_failure] at a connection whose [rollback()] raises: the
    rollback scope raises after a block that completed, the commit scope
    when the block is interrupted, in the place of the interrupt. *)
Lemma rollback_failure_witness :
  snd (rollback rollback_fails quiet_block initial) =
    Raise (DriverError DBAPI.OperationalError "could not roll back") /\
  snd (commit rollback_fails interrupted_block initial) =
    Raise (DriverError DBAPI.OperationalError "could not roll back").
Proof.
  split.
  - exact (proj1 (proj1 (rollback_failure rollback_fails quiet_block initial
             (DriverError DBAPI.OperationalError "could not roll back")
             eq_refl eq_refl eq_refl))).
  - destruct (proj2 (rollback_failure rollback_fails interrupted_block initial
             (DriverError DBAPI.OperationalError "could not roll back")
             eq_refl eq_refl eq_refl)) as [[Hreturns _]|[Hraises _]].
    + discriminate Hreturns.
    + exact Hraises.
Defined.

(** [scope_logs] at a block that completes. *)
Lemma scope_logs_witness :
  (invocations (ELog Info COMMIT [])
     (fst (commit reliable quiet_block initial)) = 1 /\
   invocations (ELog Info ROLLBACK [])
     (fst (commit reliable quiet_block initial)) = 0) /\
  (invocations (ELog Info COMMIT [])
     (fst (rollback reliable quiet_block initial)) = 0 /\
   invocations (ELog Info ROLLBACK [])
     (fst (rollback reliable quiet_block initial)) = 1).
Proof.
  destruct (scope_logs reliable quiet_block initial eq_refl)
    as [[(_ & _ & Hcommit & Hrollback & _)|(Hcalled & _)] Hscope].
  - exact (conj (conj Hcommit Hrollback) Hscope).
  - discriminate Hcalled.
Defined.

(** [by_ids_execution_raises] at 25 ids in chunks of 10, with a database
    that is lost after the first chunk: the third chunk is not sent. *)
Lemma by_ids_execution_raises_witness :
  snd (df_from_query_by_ids lost_after_first "q" ids25 None 10 initial) =
    Raise (DriverError DBAPI.OperationalError "connection lost") /\
  executed (events (fst (df_from_query_by_ids lost_after_first "q" ids25 None
                           10 initial))) = ["q"; "q"].
Proof.
  destruct (by_ids_execution_raises lost_after_first "q" ids25 None 10
              echo_response [take 10 ids25] (take 10 (drop 10 ids25))
              [drop 20 ids25]
              (DriverError DBAPI.OperationalError "connection lost") initial)
    as [Hres Hev].
  - reflexivity.
  - intros c' Hc'. apply list_elem_of_singleton in Hc' as ->.
    unfold lost_after_first.
    by rewrite bind_ids_lookup_ids by apply lookup_empty.
  - unfold lost_after_first.
    by rewrite bind_ids_lookup_ids by apply lookup_empty.
  - split; [exact Hres|]. rewrite Hev. reflexivity.
Defined.

(** [by_ids_shadowed] at parameters that carry an [ids] entry. *)
Lemma by_ids_shadowed_witness :
  events (fst (df_from_query_by_ids fixed_answer "q" ids25
                 (Some {[ "ids" := Scalar (AInt 7) ]}) 10 initial)) =
  replicate 3 (EExecute "q" (Some {[ "ids" := Scalar (AInt 7) ]})).
Proof.
  destruct (by_ids_shadowed fixed_answer "q" ids25
              {[ "ids" := Scalar (AInt 7) ]} 10 (Scalar (AInt 7)) two_scores
              initial) as [_ Hev].
  - lia.
  - apply lookup_singleton_eq.
  - reflexivity.
  - rewrite Hev. reflexivity.
Defined.

(** [by_ids_single_chunk] at two ids and a chunk size of 100. *)
Lemma by_ids_single_chunk_witness :
  df_from_query_by_ids echo "q" [AInt 4; AInt 5] None 100 initial =
  df_from_query echo "q"
    (Some (bind_ids [AInt 4; AInt 5] (or_empty None))) initial.
Proof.
  apply (by_ids_single_chunk echo "q" [AInt 4; AInt 5] None 100
           (echo_response [AInt 4; AInt 5]) initial).
  - discriminate.
  - cbn. lia.
  - unfold echo. by rewrite bind_ids_lookup_ids by apply lookup_empty.
  - discriminate.
Defined.

(** [by_keys_result] at a query with one key group and one parameter,
    rendered by the plain dialect. *)
Lemma by_keys_result_witness :
  events (fst (ByClass.df_from_query_by_keys (mogrify plain) fixed_answer
                 "select * from t where k in (select null {k}) and v > %(v)s"
                 (Some [("k", [AInt 1; AInt 2])])
                 (Some {[ "v" := Scalar (AInt 10) ]}) initial)) =
    [EWrite ("select * from t where k in (select null union all select 1"
             +:+ union_separator +:+ "union all select 2) and v > 10");
     EExecute ("select * from t where k in (select null union all select 1"
               +:+ union_separator +:+ "union all select 2) and v > 10")
       None] /\
  snd (ByClass.df_from_query_by_keys (mogrify plain) fixed_answer
         "select * from t where k in (select null {k}) and v > %(v)s"
         (Some [("k", [AInt 1; AInt 2])])
         (Some {[ "v" := Scalar (AInt 10) ]}) initial) =
    Ok {| columns := [Name "id"; Name "score"];
          data := [[AInt 1; AInt 7]; [AInt 2; AInt 9]] |}.
Proof.
  destruct (by_keys_result (mogrify plain) fixed_answer
              "select * from t where k in (select null {k}) and v > %(v)s"
              (Some [("k", [AInt 1; AInt 2])])
              (Some {[ "v" := Scalar (AInt 10) ]})
              [("k", "union all select 1" +:+ union_separator
                     +:+ "union all select 2")]
              ("select * from t where k in (select null union all select 1"
               +:+ union_separator +:+ "union all select 2) and v > %(v)s")
              ("select * from t where k in (select null union all select 1"
               +:+ union_separator +:+ "union all select 2) and v > 10")
              initial) as (Hev & _ & _ & Hrows).
  - reflexivity.
  - reflexivity.
  - reflexivity.
  - split; [exact Hev|].
    apply (Hrows two_scores); [reflexivity|discriminate|].
    repeat constructor.
Defined.

(** [by_keys_missing_group] at a query whose field names no group. *)
Lemma by_keys_missing_group_witness :
  ByClass.df_from_query_by_keys (mogrify plain) fixed_answer
    "select * from t where k in (select null {k})" None None initial =
  (initial, Raise (KeyError "k")).
Proof.
  apply (by_keys_missing_group (mogrify plain) fixed_answer
           "select * from t where k in (select null {k})" None None []
           "select * from t where k in (select null " "k" ")" initial).
  - reflexivity.
  - reflexivity.
  - reflexivity.
  - reflexivity.
  - apply not_elem_of_nil.
Defined.

(** [extant_other_field] at a template that misspells its field. *)
Lemma extant_other_field_witness :
  extant misspelt "patients" = Raise (KeyError "tabel").
Proof.
  apply (extant_other_field misspelt "patients" "select 1 as n from "
           "tabel" " limit 1"); [reflexivity..|discriminate].
Defined.

(** [check_logs] at the scenario of the spec. *)
Lemma check_logs_witness :
  exists evs,
    events (fst (check scores_missing clinic [CDriver DBAPI.DatabaseError]
                   initial)) = ELog Info ON [] :: evs /\
    warned evs = ["scores"] /\
    occurrences (ELog Info END []) evs = 0.
Proof.
  apply (check_logs scores_missing clinic [CDriver DBAPI.DatabaseError] initial).
  intros table e Hin Hprobe.
  apply elem_of_cons in Hin as [->|Hin].
  - vm_compute in Hprobe. discriminate.
  - apply elem_of_cons in Hin as [->|Hin].
    + vm_compute in Hprobe. injection Hprobe as <-. reflexivity.
    + by apply elem_of_nil in Hin.
Defined.
